(** * A copy-on-write trie (trie.cpp) and its unit-test runner

    Shallow embedding of [Trie::Get], [Trie::Put], [Trie::Remove] and their
    static helpers, over an explicit node store: a [std::shared_ptr<const
    TrieNode>] is a handle into the store, [std::make_shared] appends a node
    to it, and no node is ever written after its construction. *)

From Stdlib Require Import ZArith Ascii.
From stdpp Require Import gmap strings list fin_maps pretty.

(** ** Payloads and their runtime type *)

(** The type argument [T] of [TrieNodeWithValue<T>], [Get<T>] and [Put<T>].
    [T_other] stands for any type the source does not name. *)
Inductive TypeTag : Type :=
  | T_uint32
  | T_uint64
  | T_string
  | T_int
  | T_other (id : nat).

Global Instance TypeTag_eq_dec : EqDecision TypeTag.
Proof. solve_decision. Defined.

(** What [value_] points to. Integers are carried as [Z] (a [uint32_t] is
    a [Z] below [2^32]); the trie never computes with a payload, it only
    stores and returns it. *)
Inductive Value : Type :=
  | V_uint32 (x : Z)
  | V_uint64 (x : Z)
  | V_string (s : string)
  | V_int (x : Z)
  | V_other (id : nat) (repr : string).

Global Instance Value_eq_dec : EqDecision Value.
Proof. solve_decision. Defined.

Definition type_of (v : Value) : TypeTag :=
  match v with
  | V_uint32 _ => T_uint32
  | V_uint64 _ => T_uint64
  | V_string _ => T_string
  | V_int _ => T_int
  | V_other id _ => T_other id
  end.

(** The explicit instantiations that close trie.cpp: [Get] and [Put] exist
    for these three types only. *)
Definition instantiated (T : TypeTag) : Prop :=
  T = T_uint32 ∨ T = T_uint64 ∨ T = T_string.

(** The types tried by the casts of [CreateNodeWithNewChildren]. *)
Definition in_ladder (T : TypeTag) : Prop :=
  T = T_uint32 ∨ T = T_uint64 ∨ T = T_string ∨ T = T_int.

Global Instance instantiated_dec T : Decision (instantiated T).
Proof. unfold instantiated. apply _. Defined.

Global Instance in_ladder_dec T : Decision (in_ladder T).
Proof. unfold in_ladder. apply _. Defined.

(** ** Nodes *)

(** A non-null [std::shared_ptr<const TrieNode>]: the index of the node in
    the store. *)
Abbreviation loc := nat.

(** Modelled from the spec: the node classes of trie.h, which is not among
    the sources. A node has a child map from one byte to a node handle and
    is either a plain [TrieNode] ([is_value_node_] false) or a
    [TrieNodeWithValue<T>] ([is_value_node_] true) that adds the payload
    [value_] of type [T]. *)
Inductive TrieNode : Type :=
  | PlainNode (children : gmap ascii loc)
  | TrieNodeWithValue (children : gmap ascii loc) (value : Value).

Definition children_ (n : TrieNode) : gmap ascii loc :=
  match n with
  | PlainNode ch => ch
  | TrieNodeWithValue ch _ => ch
  end.

Definition is_value_node_ (n : TrieNode) : bool :=
  match n with
  | PlainNode _ => false
  | TrieNodeWithValue _ _ => true
  end.

(** [dynamic_cast<const TrieNodeWithValue<T> *>(n)], followed by reading
    [value_] where the cast succeeds. *)
Definition dynamic_cast (T : TypeTag) (n : TrieNode) : option Value :=
  match n with
  | PlainNode _ => None
  | TrieNodeWithValue _ v => if decide (type_of v = T) then Some v else None
  end.

(** Modelled from the spec: the class [Trie] of trie.h. A trie is its
    [root_], a possibly null node handle. *)
Definition Trie := option loc.

(** ** The store and the allocation monad *)

(** Which [return] of [CreateNodeWithNewChildren] was taken. *)
Inductive Branch : Type :=
  | BrNoValue
  | BrUInt32
  | BrUInt64
  | BrString
  | BrInt
  | BrFallback.

Global Instance Branch_eq_dec : EqDecision Branch.
Proof. solve_decision. Defined.

(** [nodes] holds every node built so far, in allocation order. [rebuilds]
    is a ghost log: one entry per call of [CreateNodeWithNewChildren],
    newest first. No operation reads it. *)
Record Store : Type := mkStore {
  nodes : list TrieNode;
  rebuilds : list Branch
}.

Definition empty_store : Store := mkStore [] [].

(** A computation reads and extends the store; [None] is a fault: the use
    of a handle that resolves to no node. *)
Definition M (A : Type) : Type := Store → option (A * Store).

Definition ret {A} (a : A) : M A := λ st, Some (a, st).

Definition bind {A B} (m : M A) (f : A → M B) : M B :=
  λ st, match m st with
        | Some (a, st') => f a st'
        | None => None
        end.

Notation "x <- m ;; k" := (bind m (λ x, k))
  (at level 100, m at next level, right associativity,
   format "'[v' x  <-  m  ;;  '/' k ']'").
Notation "m ;;; k" := (bind m (λ _, k))
  (at level 100, right associativity).

(** [node.get()] followed by a member access. *)
Definition deref (l : loc) : M TrieNode :=
  λ st, match nodes st !! l with
        | Some n => Some (n, st)
        | None => None
        end.

(** [std::make_shared<...>(...)] of a node. *)
Definition alloc (n : TrieNode) : M loc :=
  λ st, Some (length (nodes st), mkStore (nodes st ++ [n]) (rebuilds st)).

(** Ghost: log the branch taken. *)
Definition note (b : Branch) : M unit :=
  λ st, Some (tt, mkStore (nodes st) (b :: rebuilds st)).

(** ** Trie::Get *)

(** The [for (char c : key)] loop of [Get]; [None] is the early
    [return nullptr]. *)
Fixpoint Get_walk (key : string) (current : loc) : M (option loc) :=
  match key with
  | EmptyString => ret (Some current)
  | String c rest =>
      n <- deref current ;;
      match children_ n !! c with
      | None => ret None
      | Some next => Get_walk rest next
      end
  end.

Definition Get (T : TypeTag) (key : string) (root_ : Trie)
  : M (option Value) :=
  match root_ with
  | None => ret None
  | Some root =>
      end_ <- Get_walk key root ;;
      match end_ with
      | None => ret None
      | Some current =>
          n <- deref current ;;
          if negb (is_value_node_ n) then ret None
          else ret (dynamic_cast T n)
      end
  end.

(** ** CreateNodeWithNewChildren *)

Definition CreateNodeWithNewChildren (node : option loc)
    (new_children : gmap ascii loc) : M loc :=
  match node with
  | None => note BrNoValue ;;; alloc (PlainNode new_children)
  | Some l =>
      n <- deref l ;;
      if negb (is_value_node_ n) then
        note BrNoValue ;;; alloc (PlainNode new_children)
      else
        match dynamic_cast T_uint32 n with
        | Some v => note BrUInt32 ;;; alloc (TrieNodeWithValue new_children v)
        | None =>
        match dynamic_cast T_uint64 n with
        | Some v => note BrUInt64 ;;; alloc (TrieNodeWithValue new_children v)
        | None =>
        match dynamic_cast T_string n with
        | Some v => note BrString ;;; alloc (TrieNodeWithValue new_children v)
        | None =>
        match dynamic_cast T_int n with
        | Some v => note BrInt ;;; alloc (TrieNodeWithValue new_children v)
        | None => note BrFallback ;;; alloc (PlainNode new_children)
        end end end end
  end.

(** ** PutHelper and Trie::Put *)

Fixpoint PutHelper (node : option loc) (key : string) (value : Value)
  : M loc :=
  match key with
  | EmptyString =>
      match node with
      | None => alloc (TrieNodeWithValue ∅ value)
      | Some l =>
          n <- deref l ;;
          alloc (TrieNodeWithValue (children_ n) value)
      end
  | String first_char remaining =>
      new_children <-
        match node with
        | None => ret ∅
        | Some l => n <- deref l ;; ret (children_ n)
        end ;;
      child <-
        match new_children !! first_char with
        | Some it => PutHelper (Some it) remaining value
        | None => PutHelper None remaining value
        end ;;
      CreateNodeWithNewChildren node (<[first_char := child]> new_children)
  end.

Definition Put (key : string) (value : Value) (root_ : Trie) : M Trie :=
  new_root <- PutHelper root_ key value ;;
  ret (Some new_root).

(** ** RemoveHelper and Trie::Remove *)

(** The loop that copies every child except the one under [first_char]. *)
Definition copy_children_except (first_char : ascii)
    (children : gmap ascii loc) : gmap ascii loc :=
  filter (λ kv, kv.1 ≠ first_char) children.

Definition is_empty_map (m : gmap ascii loc) : bool :=
  bool_decide (m = ∅).

Fixpoint RemoveHelper (node : option loc) (key : string)
  : M (option loc) :=
  match node with
  | None => ret None
  | Some l =>
      n <- deref l ;;
      match key with
      | EmptyString =>
          if negb (is_empty_map (children_ n)) then
            l' <- alloc (PlainNode (children_ n)) ;; ret (Some l')
          else ret None
      | String first_char remaining =>
          match children_ n !! first_char with
          | None => ret (Some l)
          | Some it =>
              new_child <- RemoveHelper (Some it) remaining ;;
              let new_children :=
                match new_child with
                | Some c =>
                    <[first_char := c]>
                      (copy_children_except first_char (children_ n))
                | None => copy_children_except first_char (children_ n)
                end in
              if negb (is_value_node_ n) && is_empty_map new_children
              then ret None
              else
                l' <- CreateNodeWithNewChildren (Some l) new_children ;;
                ret (Some l')
          end
      end
  end.

Definition Remove (key : string) (root_ : Trie) : M Trie :=
  RemoveHelper root_ key.

(** ** Stores, observations and invariants *)

(** The result of a computation started on the empty store. *)
Definition run {A} (m : M A) : option A := fst <$> m empty_store.

(** Every child handle of a node was allocated before the node itself: the
    store is closed under child edges and has no cycle. *)
Definition wf_nodes (h : list TrieNode) : Prop :=
  ∀ l n c l', h !! l = Some n → children_ n !! c = Some l' → l' < l.

(** A handle is null or resolves to a node of the store. *)
Definition valid_handle (h : list TrieNode) (t : option loc) : Prop :=
  ∀ l, t = Some l → l < length h.

Definition node_in_ladder (n : TrieNode) : Prop :=
  match n with
  | PlainNode _ => True
  | TrieNodeWithValue _ v => in_ladder (type_of v)
  end.

(** Every payload of the store has one of the types that
    [CreateNodeWithNewChildren] casts to. *)
Definition ladder_nodes (h : list TrieNode) : Prop :=
  Forall node_in_ladder h.

(** [agree st t st' t' T key]: [Get<T>(key)] gives the same answer, without
    a fault, on trie [t] in store [st] and on trie [t'] in store [st']. *)
Definition agree (st : Store) (t : Trie) (st' : Store) (t' : Trie)
    (T : TypeTag) (key : string) : Prop :=
  ∃ r, Get T key t st = Some (r, st) ∧ Get T key t' st' = Some (r, st').

(** The node a handle resolves to, and the child map [PutHelper] starts
    from: that of the node, or the empty map under a null handle. *)
Definition resolve (st : Store) (node : option loc) : option TrieNode :=
  node ≫= (nodes st !!.).

Definition children_of (old : option TrieNode) : gmap ascii loc :=
  from_option children_ ∅ old.

(** What the helper builds from the node it is given ([None]: a null
    handle) and the branch it takes; a restatement for the proofs, shown
    equal to the code in [Create_spec]. *)
Definition rebuilt (old : option TrieNode) (new_children : gmap ascii loc)
  : TrieNode * Branch :=
  match old with
  | Some (TrieNodeWithValue _ v) =>
      match type_of v with
      | T_uint32 => (TrieNodeWithValue new_children v, BrUInt32)
      | T_uint64 => (TrieNodeWithValue new_children v, BrUInt64)
      | T_string => (TrieNodeWithValue new_children v, BrString)
      | T_int => (TrieNodeWithValue new_children v, BrInt)
      | T_other _ => (PlainNode new_children, BrFallback)
      end
  | _ => (PlainNode new_children, BrNoValue)
  end.

(** The child map [RemoveHelper] builds for the node above a removal: the
    entry under [c] is replaced by the new child, or dropped when the new
    child is null. *)
Definition removed_children (c : ascii) (ch : gmap ascii loc)
    (new_child : option loc) : gmap ascii loc :=
  match new_child with
  | Some x => <[c := x]> (delete c ch)
  | None => delete c ch
  end.

(** The loop of [Get] started from a possibly null root. *)
Definition walk (key : string) (t : Trie) : M (option loc) :=
  match t with
  | None => ret None
  | Some root => Get_walk key root
  end.

(** An internal node has at least one child. *)
Definition no_orphan_node (n : TrieNode) : Prop :=
  is_value_node_ n = false → children_ n ≠ ∅.

Definition no_fallback (log : list Branch) : Prop :=
  Forall (λ b, b ≠ BrFallback) log.

(** No internal node reachable from the root of [t] is childless. *)
Definition no_orphans (st : Store) (t : Trie) : Prop :=
  ∀ key l n,
    walk key t st = Some (Some l, st) → nodes st !! l = Some n →
    no_orphan_node n.

(** The stores an application can produce, with the tries it then holds:
    it starts from the empty trie and applies [Put], at one of the three
    instantiated types, or [Remove] to any trie it already has. *)
Inductive reachable : Store → list Trie → Prop :=
  | reach_init : reachable empty_store [None]
  | reach_put st ts t key v t' st' :
      reachable st ts → t ∈ ts → instantiated (type_of v) →
      Put key v t st = Some (t', st') →
      reachable st' (t' :: ts)
  | reach_remove st ts t key t' st' :
      reachable st ts → t ∈ ts →
      Remove key t st = Some (t', st') →
      reachable st' (t' :: ts).

(** What every reachable store satisfies. *)
Record store_inv (st : Store) (ts : list Trie) : Prop := {
  inv_wf : wf_nodes (nodes st);
  inv_ladder : ladder_nodes (nodes st);
  inv_log : no_fallback (rebuilds st);
  inv_valid : Forall (valid_handle (nodes st)) ts;
  inv_orphans : Forall (no_orphans st) ts
}.

(** The payload of a node, if it has one: [value_] of a
    [TrieNodeWithValue<T>]. *)
Definition value_ (n : TrieNode) : option Value :=
  match n with
  | PlainNode _ => None
  | TrieNodeWithValue _ v => Some v
  end.

(** Every payload of the store has one of the three instantiated types. *)
Definition instantiated_nodes (h : list TrieNode) : Prop :=
  Forall (λ n, ∀ w, value_ n = Some w → instantiated (type_of w)) h.

(** The [return] of [CreateNodeWithNewChildren] that a payload of type [T]
    leads to. *)
Definition cast_branch (T : TypeTag) : Branch :=
  match T with
  | T_uint32 => BrUInt32
  | T_uint64 => BrUInt64
  | T_string => BrString
  | T_int => BrInt
  | T_other _ => BrFallback
  end.

(** [w] is the payload of a node of the store. *)
Definition from_store (st : Store) (w : Value) : Prop :=
  ∃ l0 n0, nodes st !! l0 = Some n0 ∧ value_ n0 = Some w.

(** [b] is the branch the helper takes on a node without payload, or on a
    node with a payload of the store. *)
Definition branch_from_store (st : Store) (b : Branch) : Prop :=
  b = BrNoValue ∨ ∃ w, from_store st w ∧ b = cast_branch (type_of w).

(** What [Put], at an instantiated type, and [Remove] keep: payloads of the
    three instantiated types only, and a log of helper calls that shows
    only the branches of these types. *)
Record typed_inv (st : Store) : Prop := {
  typed_nodes : instantiated_nodes (nodes st);
  typed_log : Forall (λ b, b ∈ [BrNoValue; BrUInt32; BrUInt64; BrString])
                     (rebuilds st)
}.

(** ** The unit-test runner *)

Module Harness.

(** [__FILE__], [__LINE__] and [__FUNCTION__] at an assertion. *)
Record SrcLoc : Type := mkLoc {
  file : string;
  line : nat;
  function : string
}.

(** What a test function does, as far as the runner can tell: a sequence of
    assertions, each with its source text and the value its condition or
    operands took, that may end in a [throw]. *)
Inductive Stmt : Type :=
  | ASSERT_TRUE (at_ : SrcLoc) (text : string) (cond : bool)
  | ASSERT_EQ (at_ : SrcLoc) (text_l text_r : string) (lhs rhs : Z)
  | THROW (what : string)
  | THROW_UNKNOWN.

(** How the call [t.func()] ends. *)
Inductive Outcome : Type :=
  | Returned
  | Threw (what : string)
  | ThrewUnknown.

Record TestCase : Type := mkTest {
  name : string;
  func : list Stmt
}.

(** The counters and the two output streams of [main], one entry per
    line. The counters are C++ [int]s, incremented at most once per test;
    the model puts no bound on the number of tests. *)
Record Run : Type := mkRun {
  passed : Z;
  failed : Z;
  cout : list string;
  cerr : list string
}.

Definition failure_prefix (at_ : SrcLoc) : string :=
  file at_ +:+ ":" +:+ pretty (line at_) +:+ ": Failure in " +:+ function at_.

(** One test function. A failed assertion writes its message to [cerr] and
    executes [return]. *)
Fixpoint run_func (body : list Stmt) (err : list string)
  : Outcome * list string :=
  match body with
  | [] => (Returned, err)
  | ASSERT_TRUE at_ text cond :: rest =>
      if negb cond
      then (Returned,
            err ++ [failure_prefix at_ +:+ ": ASSERT_TRUE(" +:+ text
                      +:+ ") failed"])
      else run_func rest err
  | ASSERT_EQ at_ text_l text_r lhs rhs :: rest =>
      if negb (lhs =? rhs)%Z
      then (Returned,
            err ++ [failure_prefix at_ +:+ ": ASSERT_EQ(" +:+ text_l +:+ ", "
                      +:+ text_r +:+ ") failed: " +:+ pretty lhs +:+ " != "
                      +:+ pretty rhs])
      else run_func rest err
  | THROW what :: _ => (Threw what, err)
  | THROW_UNKNOWN :: _ => (ThrewUnknown, err)
  end.

(** The body of the [for (auto &t : tests)] loop. *)
Definition run_test (r : Run) (t : TestCase) : Run :=
  let out := cout r ++ ["[ RUN      ] " +:+ name t] in
  match run_func (func t) (cerr r) with
  | (Returned, err) =>
      mkRun (passed r + 1) (failed r)
            (out ++ ["[       OK ] " +:+ name t]) err
  | (Threw what, err) =>
      mkRun (passed r) (failed r + 1) out
            (err ++ ["[  FAILED  ] " +:+ name t +:+ " threw exception: "
                       +:+ what])
  | (ThrewUnknown, err) =>
      mkRun (passed r) (failed r + 1) out
            (err ++ ["[  FAILED  ] " +:+ name t +:+ " threw unknown exception"])
  end.

(** [main] as [RUN_ALL_TESTS()] defines it, up to its [return failed]; each
    entry of [cout] and [cerr] is one line. *)
Definition RUN_ALL_TESTS (tests : list TestCase) : Run :=
  let r := foldl run_test (mkRun 0 0 [] []) tests in
  let out := cout r ++ [""; "[  PASSED  ] " +:+ pretty (passed r) +:+ " tests."] in
  mkRun (passed r) (failed r)
        (if bool_decide (failed r > 0)%Z
         then out ++ ["[  FAILED  ] " +:+ pretty (failed r) +:+ " tests."]
         else out)
        (cerr r).

(** [return failed;] *)
Definition exit_status (tests : list TestCase) : Z :=
  failed (RUN_ALL_TESTS tests).

(** Whether a test function reaches an assertion that fails. *)
Fixpoint assertion_fails (body : list Stmt) : bool :=
  match body with
  | [] => false
  | ASSERT_TRUE _ _ cond :: rest => negb cond || assertion_fails rest
  | ASSERT_EQ _ _ _ lhs rhs :: rest =>
      negb (lhs =? rhs)%Z || assertion_fails rest
  | THROW _ :: _ => false
  | THROW_UNKNOWN :: _ => false
  end.

(** Whether it ends by throwing. *)
Definition throws (body : list Stmt) : bool :=
  match (run_func body []).1 with
  | Returned => false
  | _ => true
  end.

(** A test in the style of the repository's: one equality that does not
    hold. *)
Definition failing_test : TestCase :=
  mkTest "Trie.Basic"
    [ASSERT_EQ (mkLoc "trie_test.cpp" 12 "test_Trie_Basic") "1" "2" 1 2].



End Harness.

(** ** Concrete stores *)

(** A store built through the public interface: the trie with ["ab"] and
    ["cde"], over the store that also holds the two tries before it. *)
Definition demo_run : option (Trie * Store) :=
  (T0 <- Put "ab" (V_uint32 1) None ;;
   Put "cde" (V_string "x") T0) empty_store.

Definition demo_trie : Trie := from_option fst None demo_run.

Definition demo_store : Store := from_option snd empty_store demo_run.

(** A store that no application can produce: its one node holds a payload
    of a type outside the cast ladder. *)
Definition foreign_store : Store :=
  mkStore [TrieNodeWithValue ∅ (V_other 0 "3.14")] [].

(** * The scenarios of the specification, run on the empty store *)

Example scenario_S1 :
  run (T <- Put "hello" (V_uint32 42) None ;;
       a <- Get T_uint32 "hello" T ;;
       b <- Get T_uint32 "hell" T ;;
       c <- Get T_uint64 "hello" T ;;
       d <- Get T_uint32 "hello" None ;;
       ret (a, b, c, d))
  = Some (Some (V_uint32 42), None, None, None).
Proof. vm_compute. reflexivity. Qed.

Example scenario_S2 :
  run (T <- Put "" (V_string "root") None ;;
       a <- Get T_string "" T ;;
       b <- Get T_string "a" T ;;
       ret (a, b))
  = Some (Some (V_string "root"), None).
Proof. vm_compute. reflexivity. Qed.

Example scenario_S3 :
  run (T0 <- Put "ab" (V_uint32 1) None ;;
       T <- Put "abc" (V_uint32 2) T0 ;;
       a <- Get T_uint32 "ab" T ;;
       b <- Get T_uint32 "abc" T ;;
       c <- Get T_uint32 "a" T ;;
       ret (a, b, c))
  = Some (Some (V_uint32 1), Some (V_uint32 2), None).
Proof. vm_compute. reflexivity. Qed.

Example scenario_S4 :
  run (T0 <- Put "k" (V_uint32 1) None ;;
       T <- Put "k" (V_string "one") T0 ;;
       a <- Get T_string "k" T ;;
       b <- Get T_uint32 "k" T ;;
       ret (a, b))
  = Some (Some (V_string "one"), None).
Proof. vm_compute. reflexivity. Qed.

Example scenario_S5 :
  run (T <- Put "abc" (V_uint32 7) None ;;
       T' <- Remove "abc" T ;;
       a <- Get T_uint32 "abc" T' ;;
       b <- Get T_uint32 "abc" T ;;
       ret (T', a, b))
  = Some (None, None, Some (V_uint32 7)).
Proof. vm_compute. reflexivity. Qed.

Example scenario_S6 :
  run (T0 <- Put "abc" (V_uint32 1) None ;;
       T <- Put "abd" (V_uint32 2) T0 ;;
       T' <- Remove "abc" T ;;
       a <- Get T_uint32 "abc" T' ;;
       b <- Get T_uint32 "abd" T' ;;
       c <- Get T_uint32 "abc" T ;;
       ret (a, b, c))
  = Some (None, Some (V_uint32 2), Some (V_uint32 1)).
Proof. vm_compute. reflexivity. Qed.

(** * Proofs *)

(** ** The monad *)

Lemma bind_run {A B} (m : M A) (f : A → M B) st a st1 :
  m st = Some (a, st1) → bind m f st = f a st1.
Proof. intros H. unfold bind. by rewrite H. Qed.

Lemma bind_eq_Some {A B} (m : M A) (f : A → M B) st b st2 :
  bind m f st = Some (b, st2) ↔
  ∃ a st1, m st = Some (a, st1) ∧ f a st1 = Some (b, st2).
Proof.
  unfold bind. split.
  - destruct (m st) as [[a st1]|]; [|done]. intros H. by exists a, st1.
  - intros (a & st1 & Hm & H). by rewrite Hm.
Qed.

Lemma store_eta st : mkStore (nodes st) (rebuilds st) = st.
Proof. by destruct st. Qed.

(** Closes the existential on the log and rewrites the store of the goal
    to [st] when an operation allocates nothing. *)
Ltac unchanged_store :=
  exists []; rewrite ?app_nil_r; simpl; rewrite ?store_eta.

Lemma deref_run l n st : nodes st !! l = Some n → deref l st = Some (n, st).
Proof. intros H. unfold deref. by rewrite H. Qed.

(** ** Reading *)

Lemma Get_null T key st : Get T key None st = Some (None, st).
Proof. done. Qed.

Lemma Get_empty T l st :
  Get T "" (Some l) st =
  match nodes st !! l with
  | Some n => Some (dynamic_cast T n, st)
  | None => None
  end.
Proof.
  unfold Get. simpl. unfold bind, ret, deref.
  destruct (nodes st !! l) as [[ch|ch v]|]; done.
Qed.

Lemma Get_cons T c k l st :
  Get T (String c k) (Some l) st =
  match nodes st !! l with
  | Some n => Get T k (children_ n !! c) st
  | None => None
  end.
Proof.
  unfold Get. simpl. unfold bind at 1 2. unfold deref at 1.
  destruct (nodes st !! l) as [n|]; [|done].
  destruct (children_ n !! c) as [l2|]; done.
Qed.

Global Arguments Get : simpl never.

(** [Get] never faults on a well-formed store, leaves the store as it was,
    and gives the same answer in every store that extends this one. *)
Lemma Get_frame T key : ∀ t st,
  wf_nodes (nodes st) → valid_handle (nodes st) t →
  ∃ r, Get T key t st = Some (r, st) ∧
       ∀ st', nodes st `prefix_of` nodes st' → Get T key t st' = Some (r, st').
Proof.
  induction key as [|c k IH]; intros [l|] st Hwf Hv;
    try (exists None; split; [done | intros; done]).
  - pose proof (Hv l eq_refl) as Hl.
    destruct (lookup_lt_is_Some_2 _ _ Hl) as [n Hn].
    exists (dynamic_cast T n). split.
    + by rewrite Get_empty, Hn.
    + intros st' [ext Hext]. rewrite Get_empty, Hext.
      by rewrite (lookup_app_l_Some _ _ _ _ Hn).
  - pose proof (Hv l eq_refl) as Hl.
    destruct (lookup_lt_is_Some_2 _ _ Hl) as [n Hn].
    destruct (IH (children_ n !! c) st Hwf) as (r & Hr & Hfr).
    { intros l' Hl'. specialize (Hwf _ _ _ _ Hn Hl'). lia. }
    exists r. split.
    + by rewrite Get_cons, Hn.
    + intros st' Hpre. rewrite Get_cons.
      destruct Hpre as [ext Hext]. rewrite Hext.
      rewrite (lookup_app_l_Some _ _ _ _ Hn). apply Hfr. by exists ext.
Qed.

Lemma agree_frame st t T key st' :
  wf_nodes (nodes st) → valid_handle (nodes st) t →
  nodes st `prefix_of` nodes st' →
  agree st t st' t T key.
Proof.
  intros Hwf Hv Hpre. destruct (Get_frame T key t st Hwf Hv) as (r & Hr & Hfr).
  exists r. split; [done | by apply Hfr].
Qed.

Lemma agree_trans st1 t1 st2 t2 st3 t3 T key :
  agree st1 t1 st2 t2 T key → agree st2 t2 st3 t3 T key →
  agree st1 t1 st3 t3 T key.
Proof.
  intros (r & H1 & H2) (r' & H2' & H3). exists r. split; [done|].
  rewrite H2 in H2'. by simplify_eq.
Qed.

(** ** Store invariants under allocation *)

Lemma valid_handle_None h : valid_handle h None.
Proof. intros l Hl. done. Qed.

Lemma valid_handle_Some h l : valid_handle h (Some l) ↔ l < length h.
Proof.
  split; [intros H; by apply H | intros H l' Hl'; by simplify_eq].
Qed.

Lemma valid_handle_app h ext t :
  valid_handle h t → valid_handle (h ++ ext) t.
Proof.
  intros H l Hl. specialize (H l Hl). rewrite length_app. lia.
Qed.

Lemma valid_handle_child h l n c :
  wf_nodes h → h !! l = Some n → valid_handle h (children_ n !! c).
Proof.
  intros Hwf Hn l' Hl'. specialize (Hwf _ _ _ _ Hn Hl').
  apply lookup_lt_Some in Hn. lia.
Qed.

(** A node whose children are all in the store may be appended to it. *)
Lemma wf_nodes_snoc h n :
  wf_nodes h →
  (∀ c l', children_ n !! c = Some l' → l' < length h) →
  wf_nodes (h ++ [n]).
Proof.
  intros Hwf Hn l n0 c l' Hl Hc.
  destruct (decide (l < length h)) as [Hlt|Hge].
  - rewrite lookup_app_l in Hl by done. by eapply Hwf.
  - rewrite lookup_app_r in Hl by lia.
    destruct (l - length h) as [|k] eqn:Ek; simpl in Hl; [|done].
    simplify_eq. specialize (Hn _ _ Hc). lia.
Qed.

Lemma wf_nodes_nil : wf_nodes [].
Proof. intros l n c l' Hl. done. Qed.

Lemma ladder_nodes_lookup h l n :
  ladder_nodes h → h !! l = Some n → node_in_ladder n.
Proof. intros Hh Hl. by eapply Forall_lookup_1. Qed.

(** ** CreateNodeWithNewChildren *)

Lemma resolve_Some st l : resolve st (Some l) = nodes st !! l.
Proof. done. Qed.

Lemma resolve_None st : resolve st None = None.
Proof. done. Qed.

Lemma Create_spec node ch st :
  (∀ l, node = Some l → is_Some (nodes st !! l)) →
  CreateNodeWithNewChildren node ch st =
  Some (length (nodes st),
        mkStore (nodes st ++ [(rebuilt (resolve st node) ch).1])
                ((rebuilt (resolve st node) ch).2 :: rebuilds st)).
Proof.
  intros Hv. destruct node as [l|]; [|done].
  destruct (Hv l eq_refl) as [n Hn]. rewrite resolve_Some, Hn.
  unfold CreateNodeWithNewChildren. rewrite (bind_run _ _ _ _ _ (deref_run _ _ _ Hn)).
  destruct n as [ch0|ch0 v]; [done|].
  destruct v; done.
Qed.

Global Arguments CreateNodeWithNewChildren : simpl never.

Lemma rebuilt_children old ch : children_ (rebuilt old ch).1 = ch.
Proof. destruct old as [[?|? []]|]; done. Qed.

Lemma rebuilt_cast old ch T :
  (∀ n, old = Some n → node_in_ladder n) →
  dynamic_cast T (rebuilt old ch).1 = old ≫= dynamic_cast T.
Proof.
  intros Hl. destruct old as [[?|? v]|]; try done.
  specialize (Hl _ eq_refl). simpl in Hl.
  destruct v; try done.
  destruct Hl as [?|[?|[?|?]]]; done.
Qed.

Lemma rebuilt_in_ladder old ch :
  (∀ n, old = Some n → node_in_ladder n) → node_in_ladder (rebuilt old ch).1.
Proof.
  intros Hl. destruct old as [[?|? v]|]; try done.
  specialize (Hl _ eq_refl). destruct v; done.
Qed.

Lemma rebuilt_branch old ch :
  (∀ n, old = Some n → node_in_ladder n) → (rebuilt old ch).2 ≠ BrFallback.
Proof.
  intros Hl. destruct old as [[?|? v]|]; try done.
  specialize (Hl _ eq_refl). simpl in Hl. destruct v; try done.
  destruct Hl as [?|[?|[?|?]]]; done.
Qed.

Global Arguments rebuilt : simpl never.

(** ** PutHelper *)

Lemma resolve_valid st node :
  valid_handle (nodes st) node →
  ∀ l, node = Some l → is_Some (nodes st !! l).
Proof. intros Hv l Hl. apply lookup_lt_is_Some_2. by apply Hv. Qed.

Lemma resolve_app st st' node :
  valid_handle (nodes st) node → nodes st `prefix_of` nodes st' →
  resolve st' node = resolve st node.
Proof.
  intros Hv [ext Hext]. destruct node as [l|]; [|done]. simpl.
  destruct (resolve_valid _ _ Hv l eq_refl) as [n Hn].
  rewrite Hn, Hext. by apply lookup_app_l_Some.
Qed.

Lemma children_of_valid st node c :
  wf_nodes (nodes st) → valid_handle (nodes st) node →
  valid_handle (nodes st) (children_of (resolve st node) !! c).
Proof.
  intros Hwf Hv. destruct node as [l|]; [|done]. simpl.
  destruct (nodes st !! l) as [n|] eqn:Hn; [|done]. simpl.
  by eapply valid_handle_child.
Qed.

Lemma PutHelper_empty node v st :
  valid_handle (nodes st) node →
  PutHelper node "" v st =
  Some (length (nodes st),
        mkStore (nodes st ++ [TrieNodeWithValue (children_of (resolve st node)) v])
                (rebuilds st)).
Proof.
  intros Hv. destruct node as [l|]; [|done].
  destruct (resolve_valid _ _ Hv l eq_refl) as [n Hn]. simpl.
  rewrite (bind_run _ _ _ _ _ (deref_run _ _ _ Hn)). by rewrite Hn.
Qed.

Lemma PutHelper_step node c k v st :
  valid_handle (nodes st) node →
  PutHelper node (String c k) v st =
  (child <- PutHelper (children_of (resolve st node) !! c) k v ;;
   CreateNodeWithNewChildren node
     (<[c := child]> (children_of (resolve st node)))) st.
Proof.
  intros Hv. destruct node as [l|]; simpl.
  - destruct (resolve_valid _ _ Hv l eq_refl) as [n Hn].
    rewrite Hn. simpl. unfold bind at 1 2.
    rewrite (deref_run _ _ _ Hn). unfold ret.
    destruct (children_ n !! c); done.
  - unfold bind at 1. unfold ret. by rewrite lookup_empty.
Qed.

Global Arguments PutHelper : simpl never.

(** [PutHelper] never faults on a well-formed store. It appends exactly
    one node per key byte plus one, returns the handle of the last of them,
    and the extended store is well formed. *)
Lemma PutHelper_alloc key : ∀ node v st,
  wf_nodes (nodes st) → valid_handle (nodes st) node →
  ∃ fresh log,
    PutHelper node key v st =
      Some (length (nodes st) + String.length key,
            mkStore (nodes st ++ fresh) (log ++ rebuilds st)) ∧
    length fresh = S (String.length key) ∧
    length log = String.length key ∧
    wf_nodes (nodes st ++ fresh).
Proof.
  induction key as [|c k IH]; intros node v st Hwf Hv.
  - exists [TrieNodeWithValue (children_of (resolve st node)) v], [].
    rewrite PutHelper_empty by done. simpl.
    split_and!; try done.
    + by rewrite Nat.add_0_r.
    + apply wf_nodes_snoc; [done|]. intros c l' Hc.
      by eapply (children_of_valid st node c Hwf Hv).
  - set (ch := children_of (resolve st node)).
    destruct (IH (ch !! c) v st Hwf) as (fresh & log & Hrun & Hlen & Hlog & Hwf1).
    { by apply children_of_valid. }
    set (st1 := mkStore (nodes st ++ fresh) (log ++ rebuilds st)) in *.
    set (child := length (nodes st) + String.length k) in *.
    assert (Hv1 : valid_handle (nodes st1) node) by by apply valid_handle_app.
    pose proof (Create_spec node (<[c:=child]> ch) st1 (resolve_valid _ _ Hv1))
      as Hcr.
    set (nb := rebuilt (resolve st1 node) (<[c:=child]> ch)) in *.
    exists (fresh ++ [nb.1]), (nb.2 :: log).
    rewrite PutHelper_step by done. fold ch.
    rewrite (bind_run _ _ _ _ _ Hrun). fold child st1. rewrite Hcr.
    simpl. rewrite !length_app, Hlen. simpl.
    split_and!; try done.
    + by rewrite <- (assoc_L (++)).
    + lia.
    + by rewrite Hlog.
    + rewrite (assoc_L (++)). apply wf_nodes_snoc; [done|].
      intros c' l'. unfold nb. rewrite rebuilt_children.
      rewrite length_app, Hlen.
      destruct (decide (c = c')) as [->|Hne].
      * rewrite lookup_insert_eq. intros [= <-]. unfold child. lia.
      * rewrite lookup_insert_ne by done. intros Hc.
        pose proof (children_of_valid st node c' Hwf Hv _ Hc). lia.
Qed.

(** One step of [PutHelper] on a non-empty key, with the store [st1] left
    by the recursive call made explicit. *)
Lemma PutHelper_cons_inv node c k v st :
  wf_nodes (nodes st) → valid_handle (nodes st) node →
  let ch := children_of (resolve st node) in
  let child := length (nodes st) + String.length k in
  ∃ st1,
    PutHelper (ch !! c) k v st = Some (child, st1) ∧
    nodes st `prefix_of` nodes st1 ∧
    length (nodes st1) = length (nodes st) + S (String.length k) ∧
    wf_nodes (nodes st1) ∧
    PutHelper node (String c k) v st =
      Some (length (nodes st1),
            mkStore
              (nodes st1 ++ [(rebuilt (resolve st node) (<[c:=child]> ch)).1])
              ((rebuilt (resolve st node) (<[c:=child]> ch)).2
                 :: rebuilds st1)).
Proof.
  intros Hwf Hv ch child.
  destruct (PutHelper_alloc k (ch !! c) v st Hwf) as (fresh & log & Hrun & Hlen & _ & Hwf1).
  { by apply children_of_valid. }
  set (st1 := mkStore (nodes st ++ fresh) (log ++ rebuilds st)) in *.
  assert (Hpre : nodes st `prefix_of` nodes st1) by by exists fresh.
  exists st1. split_and!; try done.
  - simpl. rewrite length_app. lia.
  - rewrite PutHelper_step by done. fold ch.
    rewrite (bind_run _ _ _ _ _ Hrun). fold child.
    rewrite Create_spec.
    + by rewrite (resolve_app st st1).
    + apply resolve_valid. by apply valid_handle_app.
Qed.

Lemma lookup_snoc_length (h : list TrieNode) n : (h ++ [n]) !! length h = Some n.
Proof. by rewrite list_lookup_middle. Qed.

Lemma prefix_snoc (h : list TrieNode) n : h `prefix_of` h ++ [n].
Proof. by exists [n]. Qed.

(** Reading the key just written: the new payload under its own type, and
    nothing under any other type. *)
Lemma PutHelper_hit T key : ∀ node v st l st',
  wf_nodes (nodes st) → valid_handle (nodes st) node →
  PutHelper node key v st = Some (l, st') →
  Get T key (Some l) st' =
  Some (if decide (type_of v = T) then Some v else None, st').
Proof.
  induction key as [|c k IH]; intros node v st l st' Hwf Hv Hrun.
  - rewrite PutHelper_empty in Hrun by done. simplify_eq.
    rewrite Get_empty. simpl. by rewrite lookup_snoc_length.
  - destruct (PutHelper_cons_inv node c k v st Hwf Hv)
      as (st1 & Hrec & Hpre & Hlen & Hwf1 & Hrun').
    rewrite Hrun' in Hrun. simplify_eq.
    rewrite Get_cons. simpl. rewrite lookup_snoc_length.
    rewrite rebuilt_children, lookup_insert_eq.
    pose proof (IH _ _ _ _ _ Hwf (children_of_valid st node c Hwf Hv) Hrec)
      as Hget.
    destruct (Get_frame T k (Some (length (nodes st) + String.length k)) st1 Hwf1)
      as (r & Hr & Hfr).
    { apply valid_handle_Some. lia. }
    rewrite Hr in Hget. simplify_eq. apply Hfr. simpl. apply prefix_snoc.
Qed.

(** Reading any other key: the answer of the trie [PutHelper] started
    from, provided the payloads already stored have types that the rebuild
    of a spine node preserves. *)
Lemma PutHelper_other T key : ∀ node v st l st' key2,
  wf_nodes (nodes st) → valid_handle (nodes st) node →
  ladder_nodes (nodes st) →
  PutHelper node key v st = Some (l, st') →
  key2 ≠ key →
  agree st node st' (Some l) T key2.
Proof.
  induction key as [|c k IH]; intros node v st l st' key2 Hwf Hv Hlad Hrun Hne.
  - rewrite PutHelper_empty in Hrun by done. simplify_eq.
    destruct key2 as [|c2 k2]; [done|].
    set (st' := mkStore _ _).
    assert (Hnew : nodes st' !! length (nodes st) =
                   Some (TrieNodeWithValue (children_of (resolve st node)) v))
      by apply lookup_snoc_length.
    destruct (Get_frame T k2 (children_of (resolve st node) !! c2) st Hwf)
      as (r & Hr & Hfr).
    { by apply children_of_valid. }
    exists r. split.
    + destruct node as [l0|]; [|done]. rewrite Get_cons.
      destruct (resolve_valid _ _ Hv l0 eq_refl) as [n Hn].
      simpl in Hr. rewrite Hn in Hr. by rewrite Hn.
    + rewrite Get_cons, Hnew. apply Hfr, prefix_snoc.
  - destruct (PutHelper_cons_inv node c k v st Hwf Hv)
      as (st1 & Hrec & Hpre & Hlen & Hwf1 & Hrun').
    rewrite Hrun' in Hrun. simplify_eq.
    set (child := length (nodes st) + String.length k) in *.
    set (ch := children_of (resolve st node)) in *.
    set (st' := mkStore _ _).
    assert (Hpre1 : nodes st1 `prefix_of` nodes st') by apply prefix_snoc.
    assert (Hnew : nodes st' !! length (nodes st1) =
                   Some (rebuilt (resolve st node) (<[c:=child]> ch)).1)
      by apply lookup_snoc_length.
    assert (Hold : ∀ n, resolve st node = Some n → node_in_ladder n).
    { intros n Hn. destruct node as [l0|]; [|done].
      by eapply ladder_nodes_lookup. }
    destruct key2 as [|c2 k2].
    + exists (resolve st node ≫= dynamic_cast T). split.
      * destruct node as [l0|]; [|done]. rewrite Get_empty.
        destruct (resolve_valid _ _ Hv l0 eq_refl) as [n Hn]. simpl.
        by rewrite Hn.
      * rewrite Get_empty, Hnew. by rewrite rebuilt_cast.
    + assert (Hleft : ∃ r, Get T (String c2 k2) node st = Some (r, st) ∧
                           Get T k2 (ch !! c2) st = Some (r, st)).
      { destruct (Get_frame T k2 (ch !! c2) st Hwf) as (r & Hr & _).
        { by apply children_of_valid. }
        exists r. split; [|done].
        destruct node as [l0|]; [|done]. rewrite Get_cons.
        destruct (resolve_valid _ _ Hv l0 eq_refl) as [n Hn].
        unfold ch in Hr. simpl in Hr. rewrite Hn in Hr. simpl in Hr.
        by rewrite Hn. }
      destruct Hleft as (r & Hleft & Hsub).
      exists r. split; [done|].
      rewrite Get_cons, Hnew, rebuilt_children.
      destruct (decide (c = c2)) as [<-|Hc].
      * rewrite lookup_insert_eq.
        assert (Hk : k2 ≠ k) by congruence.
        destruct (IH _ _ _ _ _ k2 Hwf (children_of_valid st node c Hwf Hv)
                    Hlad Hrec Hk) as (r' & Hr1 & Hr2).
        fold ch in Hr1. rewrite Hsub in Hr1. simplify_eq.
        destruct (Get_frame T k2 (Some child) st1 Hwf1) as (r'' & Hr'' & Hfr).
        { apply valid_handle_Some. unfold child. lia. }
        rewrite Hr2 in Hr''. simplify_eq. by apply Hfr.
      * rewrite lookup_insert_ne by done.
        destruct (Get_frame T k2 (ch !! c2) st Hwf) as (r' & Hr' & Hfr).
        { by apply children_of_valid. }
        rewrite Hsub in Hr'. simplify_eq. apply Hfr.
        by etrans.
Qed.

(** ** RemoveHelper *)

Lemma copy_children_except_delete c (ch : gmap ascii loc) :
  copy_children_except c ch = delete c ch.
Proof.
  apply map_eq. intros i. unfold copy_children_except.
  destruct (decide (i = c)) as [->|Hne].
  - rewrite lookup_delete_eq. apply map_lookup_filter_None.
    right. intros x _ Hx. by apply Hx.
  - rewrite lookup_delete_ne by done.
    destruct (ch !! i) as [x|] eqn:Hi.
    + by apply map_lookup_filter_Some.
    + apply map_lookup_filter_None. by left.
Qed.

Lemma removed_children_lookup c ch new_child c' :
  removed_children c ch new_child !! c' =
  if decide (c = c') then new_child else ch !! c'.
Proof.
  unfold removed_children. destruct new_child as [x|]; case_decide; subst.
  - by rewrite lookup_insert_eq.
  - rewrite lookup_insert_ne by done. by rewrite lookup_delete_ne.
  - by rewrite lookup_delete_eq.
  - by rewrite lookup_delete_ne.
Qed.

Lemma RemoveHelper_null key st : RemoveHelper None key st = Some (None, st).
Proof. by destruct key. Qed.

Lemma RemoveHelper_empty l n st :
  nodes st !! l = Some n →
  RemoveHelper (Some l) "" st =
  if negb (is_empty_map (children_ n))
  then Some (Some (length (nodes st)),
             mkStore (nodes st ++ [PlainNode (children_ n)]) (rebuilds st))
  else Some (None, st).
Proof.
  intros Hn. simpl. rewrite (bind_run _ _ _ _ _ (deref_run _ _ _ Hn)).
  by destruct (negb (is_empty_map (children_ n))).
Qed.

Lemma RemoveHelper_miss l n c k st :
  nodes st !! l = Some n → children_ n !! c = None →
  RemoveHelper (Some l) (String c k) st = Some (Some l, st).
Proof.
  intros Hn Hc. simpl. rewrite (bind_run _ _ _ _ _ (deref_run _ _ _ Hn)).
  by rewrite Hc.
Qed.

Lemma RemoveHelper_step l n c it k st :
  nodes st !! l = Some n → children_ n !! c = Some it →
  RemoveHelper (Some l) (String c k) st =
  (new_child <- RemoveHelper (Some it) k ;;
   if negb (is_value_node_ n)
      && is_empty_map (removed_children c (children_ n) new_child)
   then ret None
   else l' <- CreateNodeWithNewChildren (Some l)
                (removed_children c (children_ n) new_child) ;;
        ret (Some l')) st.
Proof.
  intros Hn Hc. simpl. rewrite (bind_run _ _ _ _ _ (deref_run _ _ _ Hn)).
  rewrite Hc. unfold bind at 1 3.
  destruct (RemoveHelper (Some it) k st) as [[new_child st1]|]; [|done].
  unfold removed_children. rewrite copy_children_except_delete.
  by destruct new_child.
Qed.

Global Arguments RemoveHelper : simpl never.

(** [RemoveHelper] never faults on a well-formed store; it appends at most
    one node per key byte plus one, and returns a handle into the extended
    store, which is well formed. *)
Lemma RemoveHelper_alloc key : ∀ node st,
  wf_nodes (nodes st) → valid_handle (nodes st) node →
  ∃ r fresh log,
    RemoveHelper node key st =
      Some (r, mkStore (nodes st ++ fresh) (log ++ rebuilds st)) ∧
    length fresh ≤ S (String.length key) ∧
    wf_nodes (nodes st ++ fresh) ∧
    valid_handle (nodes st ++ fresh) r.
Proof.
  induction key as [|c k IH]; intros [l|] st Hwf Hv;
    try (exists None, []; unchanged_store;
         rewrite RemoveHelper_null; split_and!; [done | simpl; lia | done | done]).
  - destruct (resolve_valid _ _ Hv l eq_refl) as [n Hn].
    rewrite (RemoveHelper_empty _ _ _ Hn).
    destruct (is_empty_map (children_ n)); simpl.
    + exists None, []. unchanged_store.
      split_and!; [done | simpl; lia | done | done].
    + exists (Some (length (nodes st))), [PlainNode (children_ n)], [].
      split_and!; [done | simpl; lia | |].
      * apply wf_nodes_snoc; [done|]. intros c l'. simpl.
        by apply (valid_handle_child _ _ _ _ Hwf Hn).
      * apply valid_handle_Some. rewrite length_app. simpl. lia.
  - destruct (resolve_valid _ _ Hv l eq_refl) as [n Hn].
    destruct (children_ n !! c) as [it|] eqn:Hc.
    + destruct (IH (Some it) st Hwf)
        as (new_child & fresh & log & Hrun & Hlen & Hwf1 & Hv1).
      { rewrite <- Hc. by eapply valid_handle_child. }
      rewrite (RemoveHelper_step _ _ _ _ _ _ Hn Hc).
      rewrite (bind_run _ _ _ _ _ Hrun).
      destruct (negb (is_value_node_ n) && _).
      * exists None, fresh, log. split_and!; [done | simpl; lia | done | done].
      * set (st1 := mkStore _ _) in *.
        set (nc := removed_children c (children_ n) new_child).
        assert (Hn1 : nodes st1 !! l = Some n) by by apply lookup_app_l_Some.
        rewrite (bind_run _ _ _ _ _ (Create_spec (Some l) nc st1
          ltac:(intros ? [= <-]; by eexists))).
        rewrite resolve_Some, Hn1.
        exists (Some (length (nodes st ++ fresh))),
               (fresh ++ [(rebuilt (Some n) nc).1]),
               ((rebuilt (Some n) nc).2 :: log).
        rewrite !(assoc_L (++)). split_and!; [done | | |].
        -- rewrite length_app. simpl. lia.
        -- apply wf_nodes_snoc; [done|]. intros c' l'.
           rewrite rebuilt_children. unfold nc.
           rewrite removed_children_lookup. case_decide.
           ++ intros ->. by apply Hv1.
           ++ intros Hc'. pose proof (Hwf _ _ _ _ Hn Hc').
              apply lookup_lt_Some in Hn. rewrite length_app. lia.
        -- apply valid_handle_Some. rewrite (length_app (_ ++ _)). simpl. lia.
    + rewrite (RemoveHelper_miss _ _ _ _ _ Hn Hc).
      exists (Some l), []. unchanged_store.
      split_and!; [done | simpl; lia | done | done].
Qed.

(** One step of [RemoveHelper] below an existing child, with the store
    [st1] left by the recursive call made explicit. *)
Lemma RemoveHelper_cons_inv l n c it k st :
  wf_nodes (nodes st) → nodes st !! l = Some n → children_ n !! c = Some it →
  ∃ new_child st1,
    RemoveHelper (Some it) k st = Some (new_child, st1) ∧
    nodes st `prefix_of` nodes st1 ∧
    wf_nodes (nodes st1) ∧
    valid_handle (nodes st1) new_child ∧
    RemoveHelper (Some l) (String c k) st =
      let nc := removed_children c (children_ n) new_child in
      if negb (is_value_node_ n) && is_empty_map nc
      then Some (None, st1)
      else Some (Some (length (nodes st1)),
                 mkStore (nodes st1 ++ [(rebuilt (Some n) nc).1])
                         ((rebuilt (Some n) nc).2 :: rebuilds st1)).
Proof.
  intros Hwf Hn Hc.
  destruct (RemoveHelper_alloc k (Some it) st Hwf)
    as (new_child & fresh & log & Hrun & _ & Hwf1 & Hv1).
  { rewrite <- Hc. by eapply valid_handle_child. }
  set (st1 := mkStore _ _) in *.
  exists new_child, st1. split_and!; try done.
  { by exists fresh. }
  rewrite (RemoveHelper_step _ _ _ _ _ _ Hn Hc).
  rewrite (bind_run _ _ _ _ _ Hrun). simpl.
  destruct (negb (is_value_node_ n) && _); [done|].
  assert (Hn1 : nodes st1 !! l = Some n) by by apply lookup_app_l_Some.
  rewrite (bind_run _ _ _ _ _ (Create_spec (Some l) _ st1
    ltac:(intros ? [= <-]; by eexists))).
  by rewrite resolve_Some, Hn1.
Qed.

Lemma agree_null st st' T key : agree st None st' None T key.
Proof. by exists None. Qed.

Lemma agree_empty st l n st' l' n' T :
  nodes st !! l = Some n → nodes st' !! l' = Some n' →
  dynamic_cast T n = dynamic_cast T n' →
  agree st (Some l) st' (Some l') T "".
Proof.
  intros Hn Hn' Hc. exists (dynamic_cast T n).
  rewrite !Get_empty, Hn, Hn'. by rewrite Hc.
Qed.

Lemma agree_empty_null st l n st' T :
  nodes st !! l = Some n → dynamic_cast T n = None →
  agree st (Some l) st' None T "".
Proof.
  intros Hn Hc. exists None. by rewrite Get_empty, Hn, Hc.
Qed.

Lemma agree_cons st l n st' l' n' T c k :
  nodes st !! l = Some n → nodes st' !! l' = Some n' →
  agree st (children_ n !! c) st' (children_ n' !! c) T k →
  agree st (Some l) st' (Some l') T (String c k).
Proof.
  intros Hn Hn' (r & H1 & H2). exists r.
  by rewrite !Get_cons, Hn, Hn'.
Qed.

Lemma agree_cons_null st l n st' T c k :
  nodes st !! l = Some n →
  agree st (children_ n !! c) st' None T k →
  agree st (Some l) st' None T (String c k).
Proof.
  intros Hn (r & H1 & H2). exists r. by rewrite Get_cons, Hn.
Qed.

Lemma is_empty_map_true m : is_empty_map m = true ↔ m = ∅.
Proof. unfold is_empty_map. apply bool_decide_eq_true. Qed.

(** Removing a key that holds no value leaves every answer of [Get] as it
    was. *)
Lemma RemoveHelper_absent key : ∀ node st r st',
  wf_nodes (nodes st) → valid_handle (nodes st) node →
  ladder_nodes (nodes st) →
  (∀ U, Get U key node st = Some (None, st)) →
  RemoveHelper node key st = Some (r, st') →
  ∀ T key2, agree st node st' r T key2.
Proof.
  induction key as [|c k IH]; intros [l|] st r st' Hwf Hv Hlad Habs Hrun T key2;
    try (rewrite RemoveHelper_null in Hrun; simplify_eq; apply agree_null).
  - destruct (resolve_valid _ _ Hv l eq_refl) as [n Hn].
    assert (Hplain : ∀ U, dynamic_cast U n = None).
    { intros U. specialize (Habs U). rewrite Get_empty, Hn in Habs.
      by simplify_eq. }
    rewrite (RemoveHelper_empty _ _ _ Hn) in Hrun.
    destruct (is_empty_map (children_ n)) eqn:Hemp; simpl in Hrun; simplify_eq.
    + apply is_empty_map_true in Hemp.
      destruct key2 as [|c2 k2].
      * by eapply agree_empty_null.
      * eapply agree_cons_null; [done|]. rewrite Hemp, lookup_empty.
        apply agree_null.
    + set (st' := mkStore _ _).
      assert (Hn' : nodes st' !! length (nodes st) = Some (PlainNode (children_ n)))
        by apply lookup_snoc_length.
      destruct key2 as [|c2 k2].
      * eapply agree_empty; [done..|]. by rewrite Hplain.
      * eapply agree_cons; [done..|]. simpl.
        apply agree_frame; [done | by eapply valid_handle_child | apply prefix_snoc].
  - destruct (resolve_valid _ _ Hv l eq_refl) as [n Hn].
    destruct (children_ n !! c) as [it|] eqn:Hc.
    2:{ rewrite (RemoveHelper_miss _ _ _ _ _ Hn Hc) in Hrun. simplify_eq.
        by apply agree_frame. }
    destruct (RemoveHelper_cons_inv _ _ _ _ k _ Hwf Hn Hc)
      as (new_child & st1 & Hrec & Hpre & Hwf1 & Hv1 & Hrun').
    rewrite Hrun' in Hrun. clear Hrun'. simpl in Hrun.
    assert (Hvit : valid_handle (nodes st) (Some it)).
    { rewrite <- Hc. by eapply valid_handle_child. }
    assert (Hsub : ∀ T k2, agree st (Some it) st1 new_child T k2).
    { apply (IH (Some it)); try done.
      intros U. specialize (Habs U). by rewrite Get_cons, Hn, Hc in Habs. }
    set (nc := removed_children c (children_ n) new_child) in *.
    destruct (negb (is_value_node_ n) && is_empty_map nc) eqn:Hdrop;
      simplify_eq.
    + apply andb_true_iff in Hdrop as [Hnv Hemp].
      apply negb_true_iff in Hnv. apply is_empty_map_true in Hemp.
      destruct key2 as [|c2 k2].
      * eapply agree_empty_null; [done|]. by destruct n.
      * eapply agree_cons_null; [done|].
        pose proof (removed_children_lookup c (children_ n) new_child c2) as Hlk.
        fold nc in Hlk. rewrite Hemp, lookup_empty in Hlk.
        destruct (decide (c = c2)) as [<-|Hne].
        -- rewrite Hc, Hlk. apply Hsub.
        -- rewrite <- Hlk. apply agree_null.
    + set (st' := mkStore _ _).
      assert (Hn' : nodes st' !! length (nodes st1) = Some (rebuilt (Some n) nc).1)
        by apply lookup_snoc_length.
      destruct key2 as [|c2 k2].
      * eapply agree_empty; [done..|]. rewrite rebuilt_cast; [done|].
        intros ? [= <-]. by eapply ladder_nodes_lookup.
      * eapply agree_cons; [done..|]. rewrite rebuilt_children. unfold nc.
        rewrite removed_children_lookup. case_decide; subst.
        -- rewrite Hc. eapply agree_trans; [apply Hsub|].
           apply agree_frame; [done..|apply prefix_snoc].
        -- apply agree_frame; [done | by eapply valid_handle_child |].
           etrans; [done | apply prefix_snoc].
Qed.

(** ** Paths: which node a key leads to *)

Lemma walk_null key st : walk key None st = Some (None, st).
Proof. done. Qed.

Lemma walk_empty t st : walk "" t st = Some (t, st).
Proof. by destruct t. Qed.

Lemma walk_cons c k l st :
  walk (String c k) (Some l) st =
  match nodes st !! l with
  | Some n => walk k (children_ n !! c) st
  | None => None
  end.
Proof.
  simpl. unfold bind, deref. destruct (nodes st !! l) as [n|]; [|done].
  by destruct (children_ n !! c).
Qed.

Global Arguments walk : simpl never.

Lemma walk_frame key : ∀ t st,
  wf_nodes (nodes st) → valid_handle (nodes st) t →
  ∃ r, walk key t st = Some (r, st) ∧ valid_handle (nodes st) r ∧
       ∀ st', nodes st `prefix_of` nodes st' → walk key t st' = Some (r, st').
Proof.
  induction key as [|c k IH]; intros t st Hwf Hv.
  - exists t. split_and!; [apply walk_empty | done | intros; apply walk_empty].
  - destruct t as [l|]; [|by exists None].
    destruct (resolve_valid _ _ Hv l eq_refl) as [n Hn].
    destruct (IH (children_ n !! c) st Hwf) as (r & Hr & Hvr & Hfr).
    { by eapply valid_handle_child. }
    exists r. rewrite walk_cons, Hn. split_and!; [done..|].
    intros st' Hpre. rewrite walk_cons.
    destruct Hpre as [ext Hext]. rewrite Hext, (lookup_app_l_Some _ _ _ _ Hn).
    apply Hfr. by exists ext.
Qed.

Lemma walk_valid key t st l :
  wf_nodes (nodes st) → valid_handle (nodes st) t →
  walk key t st = Some (Some l, st) → l < length (nodes st).
Proof.
  intros Hwf Hv Hw. destruct (walk_frame key t st Hwf Hv) as (r & Hr & Hvr & _).
  rewrite Hr in Hw. simplify_eq. by apply Hvr.
Qed.

Lemma walk_app key t st st' r :
  wf_nodes (nodes st) → valid_handle (nodes st) t →
  nodes st `prefix_of` nodes st' →
  walk key t st = Some (r, st) → walk key t st' = Some (r, st').
Proof.
  intros Hwf Hv Hpre Hw.
  destruct (walk_frame key t st Hwf Hv) as (r' & Hr & _ & Hfr).
  rewrite Hr in Hw. simplify_eq. by apply Hfr.
Qed.

(** [Get] is the walk followed by the cast of the node it ends at. *)
Lemma Get_walk_end T key : ∀ t st,
  wf_nodes (nodes st) → valid_handle (nodes st) t →
  ∃ e, walk key t st = Some (e, st) ∧
       Get T key t st = Some (resolve st e ≫= dynamic_cast T, st).
Proof.
  induction key as [|c k IH]; intros t st Hwf Hv.
  - exists t. split; [apply walk_empty|]. destruct t as [l|]; [|done].
    destruct (resolve_valid _ _ Hv l eq_refl) as [n Hn].
    by rewrite Get_empty, resolve_Some, Hn.
  - destruct t as [l|]; [|by exists None].
    destruct (resolve_valid _ _ Hv l eq_refl) as [n Hn].
    destruct (IH (children_ n !! c) st Hwf) as (e & He & Hg).
    { by eapply valid_handle_child. }
    exists e. by rewrite walk_cons, Get_cons, Hn.
Qed.

(** Every node that [PutHelper] returns below its result is either one of
    the nodes it has just built or the node the same key led to before. *)
Lemma PutHelper_walk key : ∀ node v st l st' key2 l2,
  wf_nodes (nodes st) → valid_handle (nodes st) node →
  PutHelper node key v st = Some (l, st') →
  walk key2 (Some l) st' = Some (Some l2, st') →
  length (nodes st) ≤ l2 ∨ walk key2 node st = Some (Some l2, st).
Proof.
  induction key as [|c k IH]; intros node v st l st' key2 l2 Hwf Hv Hrun Hw.
  - rewrite PutHelper_empty in Hrun by done. simplify_eq.
    destruct key2 as [|c2 k2].
    { rewrite walk_empty in Hw. simplify_eq. by left. }
    right. rewrite walk_cons in Hw. simpl in Hw.
    rewrite lookup_snoc_length in Hw. simpl in Hw.
    destruct (walk_frame k2 (children_of (resolve st node) !! c2) st Hwf)
      as (r & Hr & _ & Hfr).
    { by apply children_of_valid. }
    rewrite (Hfr (mkStore _ _)) in Hw by apply prefix_snoc. simplify_eq.
    destruct node as [l0|]; [|done].
    destruct (resolve_valid _ _ Hv l0 eq_refl) as [n Hn].
    rewrite walk_cons, Hn. by rewrite resolve_Some, Hn in Hr.
  - destruct (PutHelper_cons_inv node c k v st Hwf Hv)
      as (st1 & Hrec & Hpre & Hlen & Hwf1 & Hrun').
    rewrite Hrun' in Hrun. clear Hrun'. simplify_eq.
    set (child := length (nodes st) + String.length k) in *.
    set (ch := children_of (resolve st node)) in *.
    destruct key2 as [|c2 k2].
    { rewrite walk_empty in Hw. simplify_eq. left. lia. }
    rewrite walk_cons in Hw. simpl in Hw.
    rewrite lookup_snoc_length, rebuilt_children in Hw.
    destruct (decide (c = c2)) as [<-|Hne].
    + rewrite lookup_insert_eq in Hw.
      destruct (walk_frame k2 (Some child) st1 Hwf1) as (r & Hr & _ & Hfr).
      { apply valid_handle_Some. unfold child. lia. }
      rewrite (Hfr (mkStore _ _)) in Hw by apply prefix_snoc. simplify_eq.
      destruct (IH _ _ _ _ _ _ _ Hwf (children_of_valid st node c Hwf Hv)
                  Hrec Hr) as [Hfresh|Hold]; [by left|].
      right. destruct node as [l0|]; [|done].
      destruct (resolve_valid _ _ Hv l0 eq_refl) as [n Hn].
      rewrite walk_cons, Hn. unfold ch in Hold.
      by rewrite resolve_Some, Hn in Hold.
    + rewrite lookup_insert_ne in Hw by done.
      destruct (walk_frame k2 (ch !! c2) st Hwf) as (r & Hr & _ & Hfr).
      { by apply children_of_valid. }
      rewrite (Hfr (mkStore _ _)) in Hw.
      2:{ simpl. etrans; [done | apply prefix_snoc]. }
      simplify_eq. right. destruct node as [l0|]; [|done].
      destruct (resolve_valid _ _ Hv l0 eq_refl) as [n Hn].
      rewrite walk_cons, Hn. unfold ch in Hr.
      by rewrite resolve_Some, Hn in Hr.
Qed.

(** ** What the freshly built nodes look like *)

Lemma rebuilt_no_orphan_insert old c (x : loc) ch :
  no_orphan_node (rebuilt old (<[c:=x]> ch)).1.
Proof. intros _. rewrite rebuilt_children. apply insert_non_empty. Qed.

Lemma rebuilt_no_orphan_kept n nc :
  node_in_ladder n →
  negb (is_value_node_ n) && is_empty_map nc = false →
  no_orphan_node (rebuilt (Some n) nc).1.
Proof.
  intros Hlad Hkeep Hplain. rewrite rebuilt_children.
  destruct n as [ch|ch v].
  - simpl in Hkeep. intros ->. by rewrite (proj2 (is_empty_map_true ∅)) in Hkeep.
  - simpl in Hlad. destruct v; try done. by destruct Hlad as [?|[?|[?|?]]].
Qed.

Lemma PutHelper_fresh key : ∀ node v st l st',
  wf_nodes (nodes st) → valid_handle (nodes st) node →
  PutHelper node key v st = Some (l, st') →
  ∃ fresh log,
    nodes st' = nodes st ++ fresh ∧ rebuilds st' = log ++ rebuilds st ∧
    Forall no_orphan_node fresh ∧
    (ladder_nodes (nodes st) → in_ladder (type_of v) →
     Forall node_in_ladder fresh ∧ no_fallback log).
Proof.
  induction key as [|c k IH]; intros node v st l st' Hwf Hv Hrun.
  - rewrite PutHelper_empty in Hrun by done. simplify_eq.
    exists [TrieNodeWithValue (children_of (resolve st node)) v], [].
    split_and!; try done.
    + by apply Forall_singleton.
    + intros _ Hlv. split; [by apply Forall_singleton | by apply Forall_nil].
  - destruct (PutHelper_cons_inv node c k v st Hwf Hv)
      as (st1 & Hrec & Hpre & Hlen & Hwf1 & Hrun').
    rewrite Hrun' in Hrun. clear Hrun'. simplify_eq.
    destruct (IH _ _ _ _ _ Hwf (children_of_valid st node c Hwf Hv) Hrec)
      as (fresh & log & Hn1 & Hb1 & Horph & Hlad).
    set (nb := rebuilt _ _).
    exists (fresh ++ [nb.1]), (nb.2 :: log). simpl.
    rewrite Hn1, Hb1, (assoc_L (++)). split_and!; try done.
    + apply Forall_app. split; [done|]. apply Forall_singleton.
      apply rebuilt_no_orphan_insert.
    + intros Hl Hlv. destruct (Hlad Hl Hlv) as [Hf Hlog].
      assert (Hold : ∀ n, resolve st node = Some n → node_in_ladder n).
      { intros n Hn. destruct node as [l0|]; [|done].
        rewrite resolve_Some in Hn. exact (ladder_nodes_lookup _ _ _ Hl Hn). }
      split.
      * apply Forall_app. split; [done|]. apply Forall_singleton.
        by apply rebuilt_in_ladder.
      * apply Forall_cons. split; [by apply rebuilt_branch | done].
Qed.

Lemma RemoveHelper_fresh key : ∀ node st r st',
  wf_nodes (nodes st) → valid_handle (nodes st) node →
  ladder_nodes (nodes st) →
  RemoveHelper node key st = Some (r, st') →
  ∃ fresh log,
    nodes st' = nodes st ++ fresh ∧ rebuilds st' = log ++ rebuilds st ∧
    Forall no_orphan_node fresh ∧ Forall node_in_ladder fresh ∧
    no_fallback log.
Proof.
  assert (Hnone : ∀ st : Store, ∃ fresh log,
    nodes st = nodes st ++ fresh ∧ rebuilds st = log ++ rebuilds st ∧
    Forall no_orphan_node fresh ∧ Forall node_in_ladder fresh ∧
    no_fallback log).
  { intros st. exists [], []. rewrite app_nil_r.
    split_and!; try done; by apply Forall_nil. }
  induction key as [|c k IH]; intros [l|] st r st' Hwf Hv Hlad Hrun;
    try (rewrite RemoveHelper_null in Hrun; simplify_eq; apply Hnone).
  - destruct (resolve_valid _ _ Hv l eq_refl) as [n Hn].
    rewrite (RemoveHelper_empty _ _ _ Hn) in Hrun.
    destruct (is_empty_map (children_ n)) eqn:Hemp; simpl in Hrun;
      simplify_eq; [apply Hnone|].
    exists [PlainNode (children_ n)], []. split_and!; try done.
    + apply Forall_singleton. intros _ Hch. simpl in Hch.
      apply is_empty_map_true in Hch. congruence.
    + by apply Forall_singleton.
    + by apply Forall_nil.
  - destruct (resolve_valid _ _ Hv l eq_refl) as [n Hn].
    destruct (children_ n !! c) as [it|] eqn:Hc.
    2:{ rewrite (RemoveHelper_miss _ _ _ _ _ Hn Hc) in Hrun. simplify_eq.
        apply Hnone. }
    destruct (RemoveHelper_cons_inv _ _ _ _ k _ Hwf Hn Hc)
      as (new_child & st1 & Hrec & Hpre & Hwf1 & Hv1 & Hrun').
    rewrite Hrun' in Hrun. clear Hrun'. simpl in Hrun.
    assert (Hvit : valid_handle (nodes st) (Some it)).
    { rewrite <- Hc. by eapply valid_handle_child. }
    destruct (IH _ _ _ _ Hwf Hvit Hlad Hrec)
      as (fresh & log & Hn1 & Hb1 & Horph & Hladf & Hlog).
    set (nc := removed_children c (children_ n) new_child) in *.
    destruct (negb (is_value_node_ n) && is_empty_map nc) eqn:Hdrop;
      simplify_eq.
    { by exists fresh, log. }
    pose proof (ladder_nodes_lookup _ _ _ Hlad Hn) as Hln.
    exists (fresh ++ [(rebuilt (Some n) nc).1]), ((rebuilt (Some n) nc).2 :: log).
    simpl. rewrite Hn1, Hb1, (assoc_L (++)). split_and!; try done.
    + apply Forall_app. split; [done|]. apply Forall_singleton.
      by apply rebuilt_no_orphan_kept.
    + apply Forall_app. split; [done|]. apply Forall_singleton.
      apply rebuilt_in_ladder. by intros ? [= <-].
    + apply Forall_cons. split; [|done].
      apply rebuilt_branch. by intros ? [= <-].
Qed.

(** Every node below the result of [RemoveHelper] is either one of the
    nodes it has just built or the node the same key led to before. *)
Lemma RemoveHelper_walk key : ∀ node st r st' key2 l2,
  wf_nodes (nodes st) → valid_handle (nodes st) node →
  RemoveHelper node key st = Some (r, st') →
  walk key2 r st' = Some (Some l2, st') →
  length (nodes st) ≤ l2 ∨ walk key2 node st = Some (Some l2, st).
Proof.
  induction key as [|c k IH]; intros [l|] st r st' key2 l2 Hwf Hv Hrun Hw;
    try (rewrite RemoveHelper_null in Hrun; simplify_eq; by right).
  - destruct (resolve_valid _ _ Hv l eq_refl) as [n Hn].
    rewrite (RemoveHelper_empty _ _ _ Hn) in Hrun.
    destruct (is_empty_map (children_ n)) eqn:Hemp; simpl in Hrun;
      simplify_eq; try done.
    destruct key2 as [|c2 k2].
    { rewrite walk_empty in Hw. simplify_eq. by left. }
    right. rewrite walk_cons in Hw. simpl in Hw.
    rewrite lookup_snoc_length in Hw. simpl in Hw.
    rewrite walk_cons, Hn.
    destruct (walk_frame k2 (children_ n !! c2) st Hwf) as (r & Hr & _ & Hfr).
    { by eapply valid_handle_child. }
    rewrite (Hfr (mkStore _ _)) in Hw by apply prefix_snoc. by simplify_eq.
  - destruct (resolve_valid _ _ Hv l eq_refl) as [n Hn].
    destruct (children_ n !! c) as [it|] eqn:Hc.
    2:{ rewrite (RemoveHelper_miss _ _ _ _ _ Hn Hc) in Hrun. simplify_eq.
        by right. }
    destruct (RemoveHelper_cons_inv _ _ _ _ k _ Hwf Hn Hc)
      as (new_child & st1 & Hrec & Hpre & Hwf1 & Hv1 & Hrun').
    rewrite Hrun' in Hrun. clear Hrun'. simpl in Hrun.
    assert (Hvit : valid_handle (nodes st) (Some it)).
    { rewrite <- Hc. by eapply valid_handle_child. }
    set (nc := removed_children c (children_ n) new_child) in *.
    destruct (negb (is_value_node_ n) && is_empty_map nc) eqn:Hdrop;
      simplify_eq; try done.
    assert (Hle : length (nodes st) ≤ length (nodes st1)).
    { destruct Hpre as [ext ->]. rewrite length_app. lia. }
    destruct key2 as [|c2 k2].
    { rewrite walk_empty in Hw. simplify_eq. by left. }
    rewrite walk_cons in Hw. simpl in Hw.
    rewrite lookup_snoc_length, rebuilt_children in Hw. unfold nc in Hw.
    rewrite removed_children_lookup in Hw.
    destruct (decide (c = c2)) as [<-|Hne].
    + destruct (walk_frame k2 new_child st1 Hwf1 Hv1) as (r & Hr & _ & Hfr).
      rewrite (Hfr (mkStore _ _)) in Hw by apply prefix_snoc. simplify_eq.
      destruct (IH _ _ _ _ _ _ Hwf Hvit Hrec Hr) as [Hfresh|Hold]; [by left|].
      right. by rewrite walk_cons, Hn, Hc.
    + destruct (walk_frame k2 (children_ n !! c2) st Hwf) as (r & Hr & _ & Hfr).
      { by eapply valid_handle_child. }
      rewrite (Hfr (mkStore _ _)) in Hw.
      2:{ simpl. etrans; [done | apply prefix_snoc]. }
      simplify_eq. right. by rewrite walk_cons, Hn.
Qed.

(** ** Sharing *)

(** Along the key, below the node that [PutHelper] rebuilds stands the old
    child map with the entry of the next key byte replaced: every other
    entry is the very handle the old node had. *)
Lemma PutHelper_shares key : ∀ node v st l st' p b s l1 n1,
  wf_nodes (nodes st) → valid_handle (nodes st) node →
  PutHelper node key v st = Some (l, st') →
  key = p +:+ String b s →
  walk p node st = Some (Some l1, st) → nodes st !! l1 = Some n1 →
  ∃ l2 n2,
    walk p (Some l) st' = Some (Some l2, st') ∧
    nodes st' !! l2 = Some n2 ∧
    ∀ c, c ≠ b → children_ n2 !! c = children_ n1 !! c.
Proof.
  induction key as [|c k IH];
    intros node v st l st' p b s l1 n1 Hwf Hv Hrun Hkey Hw Hn1.
  { by destruct p. }
  destruct (PutHelper_cons_inv node c k v st Hwf Hv)
    as (st1 & Hrec & Hpre & Hlen & Hwf1 & Hrun').
  rewrite Hrun' in Hrun. clear Hrun'. simplify_eq.
  set (child := length (nodes st) + String.length k) in *.
  destruct p as [|c' p]; injection Hkey as ? ?; subst.
  - rewrite walk_empty in Hw. simplify_eq.
    eexists _, _. split_and!; [apply walk_empty | apply lookup_snoc_length |].
    intros c Hc. rewrite rebuilt_children, lookup_insert_ne by done.
    by rewrite resolve_Some, Hn1.
  - destruct node as [l0|]; [|done].
    destruct (resolve_valid _ _ Hv l0 eq_refl) as [n Hn].
    rewrite walk_cons, Hn in Hw.
    rewrite resolve_Some, Hn in Hrec. simpl in Hrec.
    destruct (IH _ _ _ _ _ _ _ _ _ _ Hwf
                (valid_handle_child _ _ _ c' Hwf Hn) Hrec eq_refl Hw Hn1)
      as (l2 & n2 & Hw2 & Hn2 & Hsh).
    exists l2, n2. split_and!; [| |done].
    + rewrite walk_cons. simpl. rewrite lookup_snoc_length, rebuilt_children.
      rewrite lookup_insert_eq.
      apply (walk_app _ _ st1); [done | | apply prefix_snoc | done].
      apply valid_handle_Some. unfold child. lia.
    + simpl. by apply lookup_app_l_Some.
Qed.

(** The node at the end of the key keeps its whole child map. *)
Lemma PutHelper_terminal key : ∀ node v st l st' l1 n1,
  wf_nodes (nodes st) → valid_handle (nodes st) node →
  PutHelper node key v st = Some (l, st') →
  walk key node st = Some (Some l1, st) → nodes st !! l1 = Some n1 →
  ∃ l2 n2,
    walk key (Some l) st' = Some (Some l2, st') ∧
    nodes st' !! l2 = Some n2 ∧
    children_ n2 = children_ n1.
Proof.
  induction key as [|c k IH]; intros node v st l st' l1 n1 Hwf Hv Hrun Hw Hn1.
  - rewrite PutHelper_empty in Hrun by done. simplify_eq.
    rewrite walk_empty in Hw. simplify_eq.
    eexists _, _. split_and!; [apply walk_empty | apply lookup_snoc_length |].
    by rewrite resolve_Some, Hn1.
  - destruct (PutHelper_cons_inv node c k v st Hwf Hv)
      as (st1 & Hrec & Hpre & Hlen & Hwf1 & Hrun').
    rewrite Hrun' in Hrun. clear Hrun'. simplify_eq.
    set (child := length (nodes st) + String.length k) in *.
    destruct node as [l0|]; [|done].
    destruct (resolve_valid _ _ Hv l0 eq_refl) as [n Hn].
    rewrite walk_cons, Hn in Hw.
    rewrite resolve_Some, Hn in Hrec. simpl in Hrec.
    destruct (IH _ _ _ _ _ _ _ Hwf
                (valid_handle_child _ _ _ c Hwf Hn) Hrec Hw Hn1)
      as (l2 & n2 & Hw2 & Hn2 & Hsh).
    exists l2, n2. split_and!; [| |done].
    + rewrite walk_cons. simpl. rewrite lookup_snoc_length, rebuilt_children.
      rewrite lookup_insert_eq.
      apply (walk_app _ _ st1); [done | | apply prefix_snoc | done].
      apply valid_handle_Some. unfold child. lia.
    + simpl. by apply lookup_app_l_Some.
Qed.

(** ** Removing the only key of a trie *)

Lemma RemoveHelper_after_fresh_put key : ∀ v st l st1,
  wf_nodes (nodes st) →
  PutHelper None key v st = Some (l, st1) →
  ∀ st2, nodes st1 `prefix_of` nodes st2 →
         RemoveHelper (Some l) key st2 = Some (None, st2).
Proof.
  induction key as [|c k IH]; intros v st l st1 Hwf Hrun st2 Hpre.
  - rewrite PutHelper_empty in Hrun by apply valid_handle_None.
    simplify_eq. simpl in Hpre.
    assert (Hn : nodes st2 !! length (nodes st) = Some (TrieNodeWithValue ∅ v)).
    { destruct Hpre as [ext ->]. apply lookup_app_l_Some, lookup_snoc_length. }
    by rewrite (RemoveHelper_empty _ _ _ Hn).
  - destruct (PutHelper_cons_inv None c k v st Hwf (valid_handle_None _))
      as (st1' & Hrec & Hpre' & Hlen & Hwf1 & Hrun').
    rewrite Hrun' in Hrun. clear Hrun'. simplify_eq.
    set (child := length (nodes st) + String.length k) in *.
    simpl in Hpre. rewrite ?resolve_None in Hpre, Hrec.
    assert (Hn : nodes st2 !! length (nodes st1') =
                 Some (PlainNode (<[c:=child]> ∅))).
    { destruct Hpre as [ext ->]. apply lookup_app_l_Some, lookup_snoc_length. }
    rewrite (RemoveHelper_step _ _ c child _ _ Hn) by apply lookup_insert_eq.
    simpl in Hrec. rewrite lookup_empty in Hrec.
    rewrite (bind_run _ _ _ None st2).
    + simpl. unfold removed_children. rewrite delete_insert_eq, delete_empty.
      done.
    + apply (IH _ _ _ _ Hwf Hrec). etrans; [apply prefix_snoc | done].
Qed.

(** ** Trie::Put and Trie::Remove *)

Lemma Put_run key v t st l st' :
  PutHelper t key v st = Some (l, st') → Put key v t st = Some (Some l, st').
Proof. intros H. unfold Put. by rewrite (bind_run _ _ _ _ _ H). Qed.

Lemma Put_inv key v t st t' st' :
  Put key v t st = Some (t', st') →
  ∃ l, t' = Some l ∧ PutHelper t key v st = Some (l, st').
Proof.
  unfold Put. intros H. apply bind_eq_Some in H as (l & st1 & Hrun & Hret).
  unfold ret in Hret. simplify_eq. by exists l.
Qed.

(** [Put] never faults on a well-formed store. *)
Lemma Put_total key v t st :
  wf_nodes (nodes st) → valid_handle (nodes st) t →
  ∃ l st', Put key v t st = Some (Some l, st') ∧
           PutHelper t key v st = Some (l, st') ∧
           nodes st `prefix_of` nodes st' ∧
           wf_nodes (nodes st') ∧ l < length (nodes st').
Proof.
  intros Hwf Hv.
  destruct (PutHelper_alloc key t v st Hwf Hv) as (fresh & log & Hrun & Hlen & _ & Hwf').
  eexists _, _. split_and!; [by apply Put_run | done | by exists fresh | done |].
  simpl. rewrite length_app. lia.
Qed.

(** ** Tries built through the public interface *)

Lemma instantiated_in_ladder T : instantiated T → in_ladder T.
Proof. unfold instantiated, in_ladder. tauto. Qed.

Lemma no_orphans_app st st' t :
  wf_nodes (nodes st) → valid_handle (nodes st) t →
  nodes st `prefix_of` nodes st' →
  no_orphans st t → no_orphans st' t.
Proof.
  intros Hwf Hv Hpre Hno key l n Hw Hn.
  destruct (walk_frame key t st Hwf Hv) as (r & Hr & Hvr & Hfr).
  rewrite (Hfr st' Hpre) in Hw. simplify_eq.
  destruct (lookup_lt_is_Some_2 _ _ (Hvr l eq_refl)) as [n0 Hn0].
  destruct Hpre as [ext Hext]. rewrite Hext in Hn.
  rewrite (lookup_app_l_Some _ _ _ _ Hn0) in Hn. simplify_eq.
  by eapply Hno.
Qed.

Lemma fresh_or_old_no_orphan st st' fresh t key l n :
  wf_nodes (nodes st) → valid_handle (nodes st) t →
  nodes st' = nodes st ++ fresh → Forall no_orphan_node fresh →
  no_orphans st t →
  length (nodes st) ≤ l ∨ walk key t st = Some (Some l, st) →
  nodes st' !! l = Some n → no_orphan_node n.
Proof.
  intros Hwf Hv Hext Hfresh Hno [Hge|Hold] Hn; rewrite Hext in Hn.
  - rewrite lookup_app_r in Hn by done. by eapply Forall_lookup_1.
  - pose proof (walk_valid _ _ _ _ Hwf Hv Hold) as Hl.
    rewrite lookup_app_l in Hn by done. by eapply Hno.
Qed.

(** [Put] keeps a trie free of childless internal nodes. *)
Lemma Put_no_orphans key v t st t' st' :
  wf_nodes (nodes st) → valid_handle (nodes st) t →
  no_orphans st t →
  Put key v t st = Some (t', st') →
  no_orphans st' t'.
Proof.
  intros Hwf Hv Hno Hput. apply Put_inv in Hput as (l & -> & Hrun).
  destruct (PutHelper_fresh key t v st l st' Hwf Hv Hrun)
    as (fresh & log & Hext & _ & Hfresh & _).
  intros key2 l2 n2 Hw Hn2.
  eapply (fresh_or_old_no_orphan st st' fresh t key2); try done.
  by eapply PutHelper_walk.
Qed.

(** So does [Remove], the payloads of the store being of types that the
    rebuild of a spine node preserves. *)
Lemma Remove_no_orphans key t st t' st' :
  wf_nodes (nodes st) → valid_handle (nodes st) t →
  ladder_nodes (nodes st) →
  no_orphans st t →
  Remove key t st = Some (t', st') →
  no_orphans st' t'.
Proof.
  intros Hwf Hv Hlad Hno Hrun. unfold Remove in Hrun.
  destruct (RemoveHelper_fresh key t st t' st' Hwf Hv Hlad Hrun)
    as (fresh & log & Hext & _ & Hfresh & _).
  intros key2 l2 n2 Hw Hn2.
  eapply (fresh_or_old_no_orphan st st' fresh t key2); try done.
  by eapply RemoveHelper_walk.
Qed.

Lemma no_orphans_null st : no_orphans st None.
Proof. intros key l n Hw. done. Qed.

Lemma store_inv_extend st ts st' t' fresh log :
  store_inv st ts →
  nodes st' = nodes st ++ fresh → rebuilds st' = log ++ rebuilds st →
  wf_nodes (nodes st') → Forall node_in_ladder fresh → no_fallback log →
  valid_handle (nodes st') t' → no_orphans st' t' →
  store_inv st' (t' :: ts).
Proof.
  intros [Hwf Hlad Hlog Hval Horph] Hext Hb Hwf' Hfl Hfb Hv' Hno'.
  assert (Hpre : nodes st `prefix_of` nodes st') by by exists fresh.
  split.
  - done.
  - unfold ladder_nodes. rewrite Hext. by apply Forall_app.
  - unfold no_fallback. rewrite Hb. by apply Forall_app.
  - apply Forall_cons. split; [done|].
    eapply Forall_impl; [exact Hval|]. intros t Ht. rewrite Hext.
    by apply valid_handle_app.
  - apply Forall_cons. split; [done|].
    rewrite Forall_forall in Hval, Horph. apply Forall_forall. intros t Ht.
    apply (no_orphans_app st); auto.
Qed.

Lemma reachable_inv st ts : reachable st ts → store_inv st ts.
Proof.
  induction 1 as [|st ts t key v t' st' Hreach IH Hin Hty Hput
                  |st ts t key t' st' Hreach IH Hin Hrem].
  - split; try by apply Forall_nil.
    + apply wf_nodes_nil.
    + apply Forall_singleton, valid_handle_None.
    + apply Forall_singleton, no_orphans_null.
  - pose proof IH as [Hwf Hlad Hlog Hval Horph].
    rewrite Forall_forall in Hval, Horph.
    pose proof (Put_no_orphans _ _ _ _ _ _ Hwf (Hval _ Hin) (Horph _ Hin) Hput)
      as Hno'.
    apply Put_inv in Hput as (l & -> & Hrun).
    destruct (Put_total key v t st Hwf (Hval _ Hin))
      as (l' & st'' & _ & Hrun' & _ & Hwf' & Hl).
    rewrite Hrun in Hrun'. symmetry in Hrun'. simplify_eq.
    destruct (PutHelper_fresh key t v st _ _ Hwf (Hval _ Hin) Hrun)
      as (fresh & log & Hext & Hb & _ & Hfl).
    destruct (Hfl Hlad (instantiated_in_ladder _ Hty)) as [Hfresh Hfb].
    eapply store_inv_extend; try done. by apply valid_handle_Some.
  - pose proof IH as [Hwf Hlad Hlog Hval Horph].
    rewrite Forall_forall in Hval, Horph.
    pose proof (Remove_no_orphans _ _ _ _ _ Hwf (Hval _ Hin) Hlad
                  (Horph _ Hin) Hrem) as Hno'.
    unfold Remove in Hrem.
    destruct (RemoveHelper_alloc key t st Hwf (Hval _ Hin))
      as (r & fresh & log & Hrun & _ & Hwf' & Hv').
    rewrite Hrem in Hrun. simplify_eq.
    destruct (RemoveHelper_fresh key t st _ _ Hwf (Hval _ Hin) Hlad Hrem)
      as (fresh' & log' & Hext & Hb & _ & Hfresh & Hfb).
    simpl in Hext. apply app_inv_head in Hext as <-.
    simpl in Hb. apply app_inv_tail in Hb as <-.
    by eapply store_inv_extend.
Qed.

(** * The properties of the specification *)

(** C1. Round trip: on the trie returned by [S.Put(K, V)], [Get] under the
    type of [V] and key [K] yields exactly [V]. This holds for every trie
    [S] of a well-formed store, every key (the empty key included) and
    every value, whatever its type. *)
Theorem put_get_round_trip (st : Store) (S : Trie) (K : string) (V : Value) :
  wf_nodes (nodes st) → valid_handle (nodes st) S →
  ∃ S' st', Put K V S st = Some (S', st') ∧
            Get (type_of V) K S' st' = Some (Some V, st').
Proof.
  intros Hwf Hv.
  destruct (Put_total K V S st Hwf Hv) as (l & st' & Hput & Hrun & _).
  exists (Some l), st'. split; [done|].
  rewrite (PutHelper_hit (type_of V) K S V st l st' Hwf Hv Hrun).
  by rewrite decide_True.
Qed.

(** C2. Non-interference of [Put]: for distinct keys [K] and [K2] and every
    type [U], [Get<U>(K2)] answers on [S.Put(K, V)] exactly what it answers
    on [S]: the same value or the same absence. The tries are those whose
    payloads have a type that [CreateNodeWithNewChildren] casts to; every
    trie built through the public interface is one ([reachable_inv]). *)
Theorem put_non_interference (st : Store) (S : Trie) (K K2 : string)
    (V : Value) (U : TypeTag) :
  wf_nodes (nodes st) → valid_handle (nodes st) S →
  ladder_nodes (nodes st) →
  K ≠ K2 →
  ∃ S' st' r, Put K V S st = Some (S', st') ∧
              Get U K2 S' st' = Some (r, st') ∧
              Get U K2 S st = Some (r, st).
Proof.
  intros Hwf Hv Hlad Hne.
  destruct (Put_total K V S st Hwf Hv) as (l & st' & Hput & Hrun & _).
  destruct (PutHelper_other U K S V st l st' K2 Hwf Hv Hlad Hrun)
    as (r & Hold & Hnew); [done|].
  by exists (Some l), st', r.
Qed.

(** C4. Remove after put, with cascade: [E.Put(K, V).Remove(K)], for the
    empty trie [E], has an absent root, [Get] at [K] reports absence on it,
    and the trie that [Put] returned still yields [V] at [K]. *)
Theorem remove_after_put_cascade (st : Store) (K : string) (V : Value) :
  wf_nodes (nodes st) →
  ∃ T1 st1 st2,
    Put K V None st = Some (T1, st1) ∧
    Remove K T1 st1 = Some (None, st2) ∧
    Get (type_of V) K None st2 = Some (None, st2) ∧
    Get (type_of V) K T1 st2 = Some (Some V, st2).
Proof.
  intros Hwf.
  destruct (Put_total K V None st Hwf (valid_handle_None _))
    as (l & st1 & Hput & Hrun & _).
  exists (Some l), st1, st1. split_and!; [done | | done |].
  - by apply (RemoveHelper_after_fresh_put K V st l st1).
  - rewrite (PutHelper_hit (type_of V) K None V st l st1 Hwf
               (valid_handle_None _) Hrun).
    by rewrite decide_True.
Qed.

(** C5. Overwrite: on [S.Put(K, V1).Put(K, V2)], [Get<T>(K)] yields [V2]
    when [T] is the type of [V2] and absence under every other type, the
    type of [V1] included. *)
Theorem put_overwrite (st : Store) (S : Trie) (K : string) (V1 V2 : Value)
    (T : TypeTag) :
  wf_nodes (nodes st) → valid_handle (nodes st) S →
  ∃ S1 st1 S2 st2,
    Put K V1 S st = Some (S1, st1) ∧
    Put K V2 S1 st1 = Some (S2, st2) ∧
    Get T K S2 st2 =
      Some (if decide (type_of V2 = T) then Some V2 else None, st2).
Proof.
  intros Hwf Hv.
  destruct (Put_total K V1 S st Hwf Hv) as (l1 & st1 & Hput1 & _ & _ & Hwf1 & Hl1).
  assert (Hv1 : valid_handle (nodes st1) (Some l1)) by by apply valid_handle_Some.
  destruct (Put_total K V2 (Some l1) st1 Hwf1 Hv1) as (l2 & st2 & Hput2 & Hrun2 & _).
  exists (Some l1), st1, (Some l2), st2. split_and!; [done..|].
  by apply (PutHelper_hit T K (Some l1) V2 st1 l2 st2).
Qed.

(** C6. Type fidelity of [Get]: when the key [K] leads to a node holding
    the value [v], [Get<U>(K)] returns [v] under the type of [v] and
    reports absence under every other type [U]. *)
Theorem get_type_fidelity (st : Store) (S : Trie) (K : string) (l : loc)
    (ch : gmap ascii loc) (v : Value) (U : TypeTag) :
  walk K S st = Some (Some l, st) →
  nodes st !! l = Some (TrieNodeWithValue ch v) →
  Get (type_of v) K S st = Some (Some v, st) ∧
  (U ≠ type_of v → Get U K S st = Some (None, st)).
Proof.
  revert S. induction K as [|c k IH]; intros S Hw Hn.
  - rewrite walk_empty in Hw. simplify_eq. rewrite !Get_empty, Hn. simpl.
    rewrite decide_True by done. split; [done|]. intros HU.
    by rewrite decide_False.
  - destruct S as [l0|]; [|done]. rewrite walk_cons in Hw.
    rewrite !Get_cons. destruct (nodes st !! l0) as [n|]; [|done].
    by apply IH.
Qed.

(** C7. Removing an absent key is a no-op for every reader: when no value
    is stored at [K] (under any type; the path of [K] may stop early or end
    at an internal node), every [Get<T>(K2)] on [S.Remove(K)] agrees with
    the same [Get] on [S]. The tries are those of C2. *)
Theorem remove_absent_noop (st : Store) (S : Trie) (K : string) :
  wf_nodes (nodes st) → valid_handle (nodes st) S →
  ladder_nodes (nodes st) →
  (∀ U, Get U K S st = Some (None, st)) →
  ∃ S' st', Remove K S st = Some (S', st') ∧
            ∀ T K2, ∃ r, Get T K2 S' st' = Some (r, st') ∧
                         Get T K2 S st = Some (r, st).
Proof.
  intros Hwf Hv Hlad Habs.
  destruct (RemoveHelper_alloc K S st Hwf Hv) as (r & fresh & log & Hrun & _).
  eexists _, _. split; [exact Hrun|]. intros T K2.
  destruct (RemoveHelper_absent K S st _ _ Hwf Hv Hlad Habs Hrun T K2)
    as (x & Hold & Hnew).
  by exists x.
Qed.

(** C9. Structural sharing of [Put]: [T1.Put(K, V)] appends at most
    [|K| + 1] nodes to the store and changes none; along [K], every child
    entry of a node of [T1] other than the entry of the next key byte is the
    same handle in the node that replaces it, and the node at the end of
    [K] keeps all its entries; every [Get] on [T1] answers afterwards what
    it answered before. *)
Theorem put_structural_sharing (st : Store) (T1 : Trie) (K : string)
    (V : Value) :
  wf_nodes (nodes st) → valid_handle (nodes st) T1 →
  ∃ T2 st' fresh,
    Put K V T1 st = Some (T2, st') ∧
    nodes st' = nodes st ++ fresh ∧
    length fresh ≤ String.length K + 1 ∧
    (∀ p b s l1 n1,
       K = p +:+ String b s →
       walk p T1 st = Some (Some l1, st) → nodes st !! l1 = Some n1 →
       ∃ l2 n2, walk p T2 st' = Some (Some l2, st') ∧
                nodes st' !! l2 = Some n2 ∧
                ∀ c, c ≠ b → children_ n2 !! c = children_ n1 !! c) ∧
    (∀ l1 n1,
       walk K T1 st = Some (Some l1, st) → nodes st !! l1 = Some n1 →
       ∃ l2 n2, walk K T2 st' = Some (Some l2, st') ∧
                nodes st' !! l2 = Some n2 ∧
                children_ n2 = children_ n1) ∧
    (∀ l n, nodes st !! l = Some n → nodes st' !! l = Some n) ∧
    (∀ T key, ∃ r, Get T key T1 st = Some (r, st) ∧
                   Get T key T1 st' = Some (r, st')).
Proof.
  intros Hwf Hv.
  destruct (PutHelper_alloc K T1 V st Hwf Hv) as (fresh & log & Hrun & Hlen & _).
  set (st' := mkStore _ _) in *.
  exists (Some (length (nodes st) + String.length K)), st', fresh.
  split_and!.
  - by apply Put_run.
  - done.
  - lia.
  - intros p b s l1 n1 HK Hw Hn1.
    by apply (PutHelper_shares K T1 V st _ st' p b s l1 n1).
  - intros l1 n1 Hw Hn1.
    by apply (PutHelper_terminal K T1 V st _ st' l1 n1).
  - intros l n Hn. simpl. by apply lookup_app_l_Some.
  - intros T key. apply agree_frame; [done..|]. by exists fresh.
Qed.

(** C8. No orphan internals: in every trie an application can build from
    the empty trie with [Put] and [Remove], every node reachable from the
    root that carries no payload has a non-empty child map; and every
    further [Put] or [Remove] on such a trie returns a trie with the same
    property. *)
Theorem no_orphan_internals (st : Store) (ts : list Trie) (t : Trie) :
  reachable st ts → t ∈ ts →
  (∀ key l n,
     walk key t st = Some (Some l, st) → nodes st !! l = Some n →
     is_value_node_ n = false → children_ n ≠ ∅) ∧
  (∀ key v, ∃ t' st',
     Put key v t st = Some (t', st') ∧ no_orphans st' t') ∧
  (∀ key, ∃ t' st',
     Remove key t st = Some (t', st') ∧ no_orphans st' t').
Proof.
  intros Hreach Hin.
  destruct (reachable_inv st ts Hreach) as [Hwf Hlad _ Hval Horph].
  rewrite Forall_forall in Hval, Horph.
  specialize (Hval t Hin). specialize (Horph t Hin).
  split_and!.
  - intros key l n Hw Hn. by apply (Horph key l n).
  - intros key v.
    destruct (Put_total key v t st Hwf Hval) as (l & st' & Hput & _).
    exists (Some l), st'. split; [done|]. by eapply Put_no_orphans.
  - intros key.
    destruct (RemoveHelper_alloc key t st Hwf Hval)
      as (r & fresh & log & Hrun & _).
    eexists _, _. split; [exact Hrun|]. by eapply Remove_no_orphans.
Qed.

(** C10. The payload-dropping fallback of [CreateNodeWithNewChildren] is
    unreachable through the public interface: in every store an application
    can produce, no call of the helper has taken the fallback branch, and a
    call on any node of the store takes a branch that keeps the payload and
    its type. *)
Theorem fallback_unreachable (st : Store) (ts : list Trie) :
  reachable st ts →
  (BrFallback ∉ rebuilds st) ∧
  (∀ l n new_children,
     nodes st !! l = Some n →
     ∃ n' b,
       CreateNodeWithNewChildren (Some l) new_children st =
         Some (length (nodes st),
               mkStore (nodes st ++ [n']) (b :: rebuilds st)) ∧
       b ≠ BrFallback ∧
       children_ n' = new_children ∧
       is_value_node_ n' = is_value_node_ n ∧
       (∀ T, dynamic_cast T n' = dynamic_cast T n)).
Proof.
  intros Hreach.
  destruct (reachable_inv st ts Hreach) as [Hwf Hlad Hlog _ _].
  split.
  - intros Hin. unfold no_fallback in Hlog. rewrite Forall_forall in Hlog.
    by apply (Hlog _ Hin).
  - intros l n ch Hn.
    pose proof (ladder_nodes_lookup _ _ _ Hlad Hn) as Hln.
    assert (Hold : ∀ n0, Some n = Some n0 → node_in_ladder n0)
      by by intros ? [= <-].
    exists (rebuilt (Some n) ch).1, (rebuilt (Some n) ch).2.
    rewrite Create_spec by (intros ? [= <-]; by eexists).
    rewrite resolve_Some, Hn. split_and!.
    + done.
    + by apply rebuilt_branch.
    + apply rebuilt_children.
    + pose proof (rebuilt_cast (Some n) ch) as Hc.
      destruct n as [ch0|ch0 v]; [done|].
      specialize (Hc (type_of v) Hold). simpl in Hc.
      rewrite decide_True in Hc by done.
      by destruct (rebuilt (Some (TrieNodeWithValue ch0 v)) ch).1.
    + intros T. by rewrite rebuilt_cast.
Qed.

(** * Further properties of the operations *)

(** ** Reading along a path *)

(** [Get] at the end of a walk is the cast of the node the walk ends at. *)
Lemma Get_of_walk T key : ∀ t st l n,
  walk key t st = Some (Some l, st) → nodes st !! l = Some n →
  Get T key t st = Some (dynamic_cast T n, st).
Proof.
  induction key as [|c k IH]; intros t st l n Hw Hn.
  - rewrite walk_empty in Hw. simplify_eq. by rewrite Get_empty, Hn.
  - destruct t as [l0|]; [|done]. rewrite walk_cons in Hw. rewrite Get_cons.
    destruct (nodes st !! l0) as [n0|]; [|done]. by eapply IH.
Qed.

Lemma walk_append p : ∀ q t st e,
  walk p t st = Some (e, st) → walk (p +:+ q) t st = walk q e st.
Proof.
  induction p as [|c p IH]; intros q t st e Hw.
  - rewrite walk_empty in Hw. by simplify_eq.
  - destruct t as [l|].
    + change (String c p +:+ q) with (String c (p +:+ q)).
      rewrite walk_cons in Hw. rewrite walk_cons.
      destruct (nodes st !! l) as [n|]; [|done]. by apply IH.
    + rewrite walk_null in Hw. simplify_eq. by rewrite !walk_null.
Qed.

Lemma Get_append T p : ∀ q t st e,
  walk p t st = Some (e, st) → Get T (p +:+ q) t st = Get T q e st.
Proof.
  induction p as [|c p IH]; intros q t st e Hw.
  - rewrite walk_empty in Hw. by simplify_eq.
  - destruct t as [l|].
    + change (String c p +:+ q) with (String c (p +:+ q)).
      rewrite walk_cons in Hw. rewrite Get_cons.
      destruct (nodes st !! l) as [n|]; [|done]. by apply IH.
    + rewrite walk_null in Hw. simplify_eq. by rewrite !Get_null.
Qed.

(** ** RemoveHelper on a key that may be present *)

(** After the removal no value is left under the key, whatever was there
    and whatever its type. *)
Lemma RemoveHelper_gone T key : ∀ node st r st',
  wf_nodes (nodes st) → valid_handle (nodes st) node →
  RemoveHelper node key st = Some (r, st') →
  Get T key r st' = Some (None, st').
Proof.
  induction key as [|c k IH]; intros [l|] st r st' Hwf Hv Hrun;
    try (rewrite RemoveHelper_null in Hrun; by simplify_eq).
  - destruct (resolve_valid _ _ Hv l eq_refl) as [n Hn].
    rewrite (RemoveHelper_empty _ _ _ Hn) in Hrun.
    destruct (is_empty_map (children_ n)); simpl in Hrun; simplify_eq;
      [done|].
    rewrite Get_empty. simpl. by rewrite lookup_snoc_length.
  - destruct (resolve_valid _ _ Hv l eq_refl) as [n Hn].
    destruct (children_ n !! c) as [it|] eqn:Hc.
    2:{ rewrite (RemoveHelper_miss _ _ _ _ _ Hn Hc) in Hrun. simplify_eq.
        by rewrite Get_cons, Hn, Hc. }
    destruct (RemoveHelper_cons_inv _ _ _ _ k _ Hwf Hn Hc)
      as (new_child & st1 & Hrec & Hpre & Hwf1 & Hv1 & Hrun').
    rewrite Hrun' in Hrun. clear Hrun'. simpl in Hrun.
    assert (Hvit : valid_handle (nodes st) (Some it)).
    { rewrite <- Hc. by eapply valid_handle_child. }
    pose proof (IH _ _ _ _ Hwf Hvit Hrec) as Hsub.
    destruct (negb (is_value_node_ n) && _); simplify_eq; [done|].
    rewrite Get_cons. simpl. rewrite lookup_snoc_length, rebuilt_children.
    rewrite removed_children_lookup, decide_True by done.
    destruct (Get_frame T k new_child st1 Hwf1 Hv1) as (x & Hx & Hfr).
    rewrite Hx in Hsub. simplify_eq. apply Hfr, prefix_snoc.
Qed.

(** Every other key answers as before, the payloads of the store being of
    types that the rebuild of a spine node preserves. *)
Lemma RemoveHelper_other key : ∀ node st r st' T key2,
  wf_nodes (nodes st) → valid_handle (nodes st) node →
  ladder_nodes (nodes st) →
  RemoveHelper node key st = Some (r, st') →
  key2 ≠ key →
  agree st node st' r T key2.
Proof.
  induction key as [|c k IH];
    intros [l|] st r st' T key2 Hwf Hv Hlad Hrun Hne;
    try (rewrite RemoveHelper_null in Hrun; simplify_eq; apply agree_null).
  - destruct (resolve_valid _ _ Hv l eq_refl) as [n Hn].
    rewrite (RemoveHelper_empty _ _ _ Hn) in Hrun.
    destruct key2 as [|c2 k2]; [done|].
    destruct (is_empty_map (children_ n)) eqn:Hemp; simpl in Hrun; simplify_eq.
    + apply is_empty_map_true in Hemp.
      eapply agree_cons_null; [done|]. rewrite Hemp, lookup_empty.
      apply agree_null.
    + eapply agree_cons; [done | apply lookup_snoc_length |]. simpl.
      apply agree_frame; [done | by eapply valid_handle_child | apply prefix_snoc].
  - destruct (resolve_valid _ _ Hv l eq_refl) as [n Hn].
    destruct (children_ n !! c) as [it|] eqn:Hc.
    2:{ rewrite (RemoveHelper_miss _ _ _ _ _ Hn Hc) in Hrun. simplify_eq.
        by apply agree_frame. }
    destruct (RemoveHelper_cons_inv _ _ _ _ k _ Hwf Hn Hc)
      as (new_child & st1 & Hrec & Hpre & Hwf1 & Hv1 & Hrun').
    rewrite Hrun' in Hrun. clear Hrun'. simpl in Hrun.
    assert (Hvit : valid_handle (nodes st) (Some it)).
    { rewrite <- Hc. by eapply valid_handle_child. }
    assert (Hsub : ∀ k2, k2 ≠ k → agree st (Some it) st1 new_child T k2).
    { intros k2 Hk2. by apply (IH (Some it)). }
    set (nc := removed_children c (children_ n) new_child) in *.
    destruct (negb (is_value_node_ n) && is_empty_map nc) eqn:Hdrop;
      simplify_eq.
    + apply andb_true_iff in Hdrop as [Hnv Hemp].
      apply negb_true_iff in Hnv. apply is_empty_map_true in Hemp.
      destruct key2 as [|c2 k2].
      * eapply agree_empty_null; [done|]. by destruct n.
      * eapply agree_cons_null; [done|].
        pose proof (removed_children_lookup c (children_ n) new_child c2) as Hlk.
        fold nc in Hlk. rewrite Hemp, lookup_empty in Hlk.
        destruct (decide (c = c2)) as [<-|Hc2].
        -- rewrite Hc, Hlk. apply Hsub. congruence.
        -- rewrite <- Hlk. apply agree_null.
    + set (st' := mkStore _ _).
      assert (Hn' : nodes st' !! length (nodes st1) = Some (rebuilt (Some n) nc).1)
        by apply lookup_snoc_length.
      destruct key2 as [|c2 k2].
      * eapply agree_empty; [done..|]. rewrite rebuilt_cast; [done|].
        intros ? [= <-]. exact (ladder_nodes_lookup _ _ _ Hlad Hn).
      * eapply agree_cons; [done..|]. rewrite rebuilt_children. unfold nc.
        rewrite removed_children_lookup.
        destruct (decide (c = c2)) as [<-|Hc2].
        -- rewrite Hc. eapply agree_trans; [apply Hsub; congruence|].
           apply agree_frame; [done..|apply prefix_snoc].
        -- apply agree_frame; [done | by eapply valid_handle_child |].
           etrans; [done | apply prefix_snoc].
Qed.

(** A removal that returns the null handle has built nothing. *)
Lemma RemoveHelper_null_result key : ∀ node st st',
  wf_nodes (nodes st) → valid_handle (nodes st) node →
  RemoveHelper node key st = Some (None, st') → st' = st.
Proof.
  induction key as [|c k IH]; intros [l|] st st' Hwf Hv Hrun;
    try (rewrite RemoveHelper_null in Hrun; by simplify_eq).
  - destruct (resolve_valid _ _ Hv l eq_refl) as [n Hn].
    rewrite (RemoveHelper_empty _ _ _ Hn) in Hrun.
    destruct (is_empty_map (children_ n)); simpl in Hrun; by simplify_eq.
  - destruct (resolve_valid _ _ Hv l eq_refl) as [n Hn].
    destruct (children_ n !! c) as [it|] eqn:Hc.
    2:{ rewrite (RemoveHelper_miss _ _ _ _ _ Hn Hc) in Hrun. by simplify_eq. }
    destruct (RemoveHelper_cons_inv _ _ _ _ k _ Hwf Hn Hc)
      as (new_child & st1 & Hrec & Hpre & Hwf1 & Hv1 & Hrun').
    rewrite Hrun' in Hrun. clear Hrun'. simpl in Hrun.
    assert (Hvit : valid_handle (nodes st) (Some it)).
    { rewrite <- Hc. by eapply valid_handle_child. }
    destruct (negb (is_value_node_ n) && _) eqn:Hdrop; simplify_eq.
    apply andb_true_iff in Hdrop as [_ Hemp]. apply is_empty_map_true in Hemp.
    pose proof (removed_children_lookup c (children_ n) new_child c) as Hlk.
    rewrite Hemp, lookup_empty, decide_True in Hlk by done. subst new_child.
    by apply (IH (Some it)).
Qed.

(** Along the key, a node that [RemoveHelper] rebuilds keeps every child
    entry of the old node except the entry of the next key byte. *)
Lemma RemoveHelper_shares key : ∀ node st r st' p b s l1 n1 l2 n2,
  wf_nodes (nodes st) → valid_handle (nodes st) node →
  RemoveHelper node key st = Some (r, st') →
  key = p +:+ String b s →
  walk p node st = Some (Some l1, st) → nodes st !! l1 = Some n1 →
  walk p r st' = Some (Some l2, st') → nodes st' !! l2 = Some n2 →
  ∀ c, c ≠ b → children_ n2 !! c = children_ n1 !! c.
Proof.
  induction key as [|c k IH];
    intros node st r st' p b s l1 n1 l2 n2 Hwf Hv Hrun Hkey Hw1 Hn1 Hw2 Hn2.
  { by destruct p. }
  destruct node as [l|]; [|by rewrite walk_null in Hw1].
  destruct (resolve_valid _ _ Hv l eq_refl) as [n Hn].
  destruct (children_ n !! c) as [it|] eqn:Hc.
  2:{ rewrite (RemoveHelper_miss _ _ _ _ _ Hn Hc) in Hrun. by simplify_eq. }
  destruct (RemoveHelper_cons_inv _ _ _ _ k _ Hwf Hn Hc)
    as (new_child & st1 & Hrec & Hpre & Hwf1 & Hv1 & Hrun').
  rewrite Hrun' in Hrun. clear Hrun'. simpl in Hrun.
  assert (Hvit : valid_handle (nodes st) (Some it)).
  { rewrite <- Hc. by eapply valid_handle_child. }
  destruct (negb (is_value_node_ n) && _) eqn:Hdrop; simplify_eq; try done.
  destruct p as [|c' p]; injection Hkey as ? ?; subst.
  - rewrite walk_empty in Hw1, Hw2. injection Hw1 as <-. injection Hw2 as <-.
    simpl in Hn2. rewrite lookup_snoc_length in Hn2.
    rewrite Hn in Hn1. simplify_eq.
    intros c Hcb. rewrite rebuilt_children, removed_children_lookup.
    by rewrite decide_False.
  - rewrite walk_cons, Hn, Hc in Hw1.
    rewrite walk_cons in Hw2. simpl in Hw2.
    rewrite lookup_snoc_length, rebuilt_children in Hw2.
    rewrite removed_children_lookup, decide_True in Hw2 by done.
    destruct (walk_frame p new_child st1 Hwf1 Hv1) as (e & He & Hve & Hfr).
    rewrite (Hfr (mkStore _ _)) in Hw2 by apply prefix_snoc. simplify_eq.
    simpl in Hn2. rewrite lookup_app_l in Hn2 by by apply Hve.
    by apply (IH (Some it) st new_child st1 p b s l1 n1 l2 n2).
Qed.

(** ** Where payloads come from *)

Lemma lookup_snoc_inv (h : list TrieNode) x i y :
  (h ++ [x]) !! i = Some y → h !! i = Some y ∨ (i = length h ∧ y = x).
Proof.
  intros H. destruct (decide (i < length h)) as [Hlt|Hge].
  - left. by rewrite lookup_app_l in H.
  - right. rewrite lookup_app_r in H by lia.
    destruct (i - length h) as [|j] eqn:Hj; simpl in H; [|done].
    simplify_eq. split; [lia | done].
Qed.

Lemma rebuilt_value old ch w :
  value_ (rebuilt old ch).1 = Some w →
  ∃ n0, old = Some n0 ∧ value_ n0 = Some w.
Proof.
  destruct old as [[ch0|ch0 v]|]; try done.
  intros H. exists (TrieNodeWithValue ch0 v). split; [done|].
  by destruct v.
Qed.

Lemma rebuilt_branch_value old ch :
  (rebuilt old ch).2 = BrNoValue ∨
  ∃ n0 w, old = Some n0 ∧ value_ n0 = Some w ∧
          (rebuilt old ch).2 = cast_branch (type_of w).
Proof.
  destruct old as [[ch0|ch0 v]|]; try by left.
  right. exists (TrieNodeWithValue ch0 v), v. by destruct v.
Qed.

Lemma resolve_from_store st node n0 w :
  resolve st node = Some n0 → value_ n0 = Some w → from_store st w.
Proof.
  intros Hr Hw. destruct node as [l0|]; [|done]. by exists l0, n0.
Qed.

(** [PutHelper] stores the new value and copies payloads it finds; it
    brings no other payload into the store, and every helper call it logs
    is on a node of the store it started from. *)
Lemma PutHelper_provenance key : ∀ node v st l st',
  wf_nodes (nodes st) → valid_handle (nodes st) node →
  PutHelper node key v st = Some (l, st') →
  (∀ l2 n2 w, nodes st' !! l2 = Some n2 → value_ n2 = Some w →
              w = v ∨ from_store st w) ∧
  (∃ log, rebuilds st' = log ++ rebuilds st ∧
          Forall (branch_from_store st) log).
Proof.
  induction key as [|c k IH]; intros node v st l st' Hwf Hv Hrun.
  - rewrite PutHelper_empty in Hrun by done. simplify_eq. split.
    + intros l2 n2 w Hn2 Hw. simpl in Hn2.
      apply lookup_snoc_inv in Hn2 as [Hold|[_ ->]].
      * right. by exists l2, n2.
      * left. simpl in Hw. by simplify_eq.
    + by exists [].
  - destruct (PutHelper_cons_inv node c k v st Hwf Hv)
      as (st1 & Hrec & Hpre & Hlen & Hwf1 & Hrun').
    rewrite Hrun' in Hrun. clear Hrun'. simplify_eq.
    destruct (IH _ _ _ _ _ Hwf (children_of_valid st node c Hwf Hv) Hrec)
      as (Hval & log & Hlog & Hfrom).
    set (nb := rebuilt _ _). split.
    + intros l2 n2 w Hn2 Hw. simpl in Hn2.
      apply lookup_snoc_inv in Hn2 as [Hold|[_ ->]].
      * by eapply Hval.
      * right. apply rebuilt_value in Hw as (n0 & Hr & Hw).
        by eapply resolve_from_store.
    + exists (nb.2 :: log). simpl. rewrite Hlog. split; [done|].
      apply Forall_cons. split; [|done].
      destruct (rebuilt_branch_value (resolve st node)
                  (<[c:=length (nodes st) + String.length k]>
                     (children_of (resolve st node))))
        as [Hb|(n0 & w & Hr & Hw & Hb)].
      * by left.
      * right. exists w. split; [by eapply resolve_from_store | done].
Qed.

(** [RemoveHelper] only copies payloads it finds. *)
Lemma RemoveHelper_provenance key : ∀ node st r st',
  wf_nodes (nodes st) → valid_handle (nodes st) node →
  RemoveHelper node key st = Some (r, st') →
  (∀ l2 n2 w, nodes st' !! l2 = Some n2 → value_ n2 = Some w →
              from_store st w) ∧
  (∃ log, rebuilds st' = log ++ rebuilds st ∧
          Forall (branch_from_store st) log).
Proof.
  assert (Hsame : ∀ st : Store,
    (∀ l2 n2 w, nodes st !! l2 = Some n2 → value_ n2 = Some w →
                from_store st w) ∧
    (∃ log, rebuilds st = log ++ rebuilds st ∧
            Forall (branch_from_store st) log)).
  { intros st. split; [intros l2 n2 w ? ?; by exists l2, n2 | by exists []]. }
  induction key as [|c k IH]; intros [l|] st r st' Hwf Hv Hrun;
    try (rewrite RemoveHelper_null in Hrun; simplify_eq; apply Hsame).
  - destruct (resolve_valid _ _ Hv l eq_refl) as [n Hn].
    rewrite (RemoveHelper_empty _ _ _ Hn) in Hrun.
    destruct (is_empty_map (children_ n)); simpl in Hrun; simplify_eq;
      [apply Hsame|].
    split; [|by exists []].
    intros l2 n2 w Hn2 Hw. simpl in Hn2.
    apply lookup_snoc_inv in Hn2 as [Hold|[_ ->]]; [by exists l2, n2 | done].
  - destruct (resolve_valid _ _ Hv l eq_refl) as [n Hn].
    destruct (children_ n !! c) as [it|] eqn:Hc.
    2:{ rewrite (RemoveHelper_miss _ _ _ _ _ Hn Hc) in Hrun. simplify_eq.
        apply Hsame. }
    destruct (RemoveHelper_cons_inv _ _ _ _ k _ Hwf Hn Hc)
      as (new_child & st1 & Hrec & Hpre & Hwf1 & Hv1 & Hrun').
    rewrite Hrun' in Hrun. clear Hrun'. simpl in Hrun.
    assert (Hvit : valid_handle (nodes st) (Some it)).
    { rewrite <- Hc. by eapply valid_handle_child. }
    destruct (IH _ _ _ _ Hwf Hvit Hrec) as (Hval & log & Hlog & Hfrom).
    destruct (negb (is_value_node_ n) && _); simplify_eq.
    { split; [done | by exists log]. }
    set (nc := removed_children c (children_ n) new_child).
    split.
    + intros l2 n2 w Hn2 Hw. simpl in Hn2.
      apply lookup_snoc_inv in Hn2 as [Hold|[_ ->]]; [by eapply Hval|].
      apply rebuilt_value in Hw as (n0 & [= <-] & Hw). by exists l, n.
    + exists ((rebuilt (Some n) nc).2 :: log). simpl. rewrite Hlog.
      split; [done|]. apply Forall_cons. split; [|done].
      destruct (rebuilt_branch_value (Some n) nc)
        as [Hb|(n0 & w & [= <-] & Hw & Hb)]; [by left|].
      right. exists w. split; [by exists l, n | done].
Qed.

Lemma typed_inv_step st st' :
  typed_inv st →
  (∀ l2 n2 w, nodes st' !! l2 = Some n2 → value_ n2 = Some w →
              instantiated (type_of w) ∨ from_store st w) →
  (∃ log, rebuilds st' = log ++ rebuilds st ∧
          Forall (branch_from_store st) log) →
  typed_inv st'.
Proof.
  intros [Hn Hl] Hval (log & Hlog & Hfrom).
  unfold instantiated_nodes in Hn. rewrite Forall_lookup in Hn.
  assert (Hw : ∀ w, from_store st w → instantiated (type_of w)).
  { intros w (l0 & n0 & Hn0 & Hw). by eapply Hn. }
  split.
  - apply Forall_lookup. intros l2 n2 Hn2 w Hv.
    destruct (Hval l2 n2 w Hn2 Hv) as [?|?]; auto.
  - rewrite Hlog. apply Forall_app. split; [|done].
    eapply Forall_impl; [exact Hfrom|]. intros b [->|(w & Hfw & ->)].
    + set_solver.
    + destruct (Hw w Hfw) as [H|[H|H]]; rewrite H; simpl; set_solver.
Qed.

Lemma reachable_typed st ts : reachable st ts → typed_inv st.
Proof.
  induction 1 as [|st ts t key v t' st' Hreach IH Hin Hty Hput
                  |st ts t key t' st' Hreach IH Hin Hrem].
  - split; by apply Forall_nil.
  - destruct (reachable_inv st ts Hreach) as [Hwf _ _ Hval _].
    rewrite Forall_forall in Hval.
    apply Put_inv in Hput as (l & -> & Hrun).
    destruct (PutHelper_provenance key t v st l st' Hwf (Hval _ Hin) Hrun)
      as [Hp Hlog].
    apply (typed_inv_step st); [done | | done].
    intros l2 n2 w Hn2 Hw. destruct (Hp l2 n2 w Hn2 Hw) as [->|?]; auto.
  - destruct (reachable_inv st ts Hreach) as [Hwf _ _ Hval _].
    rewrite Forall_forall in Hval. unfold Remove in Hrem.
    destruct (RemoveHelper_provenance key t st t' st' Hwf (Hval _ Hin) Hrem)
      as [Hp Hlog].
    apply (typed_inv_step st); [done | | done].
    intros l2 n2 w Hn2 Hw. right. by eapply Hp.
Qed.

(** ** Every node leads to a value *)

Lemma no_orphans_sub st t p e :
  no_orphans st t → walk p t st = Some (e, st) → no_orphans st e.
Proof.
  intros Hno Hw key l n Hwk Hn. apply (Hno (p +:+ key) l n); [|done].
  by rewrite (walk_append p key t st e).
Qed.

(** Below a node of a trie without childless internal nodes, some path ends
    at a node with a payload. *)
Lemma value_below st :
  wf_nodes (nodes st) →
  ∀ l n, nodes st !! l = Some n → no_orphans st (Some l) →
  ∃ q l' ch v, walk q (Some l) st = Some (Some l', st) ∧
               nodes st !! l' = Some (TrieNodeWithValue ch v).
Proof.
  intros Hwf l. induction (lt_wf l) as [l _ IH]. intros n Hn Hno.
  destruct n as [ch|ch v].
  - assert (Hne : ch ≠ ∅).
    { apply (Hno "" l (PlainNode ch)); [apply walk_empty | done..]. }
    apply map_choose in Hne as (c & l1 & Hc).
    pose proof (Hwf _ _ _ _ Hn Hc) as Hlt.
    assert (Hl1 : l1 < length (nodes st)).
    { apply lookup_lt_Some in Hn. lia. }
    destruct (lookup_lt_is_Some_2 _ _ Hl1) as [n1 Hn1].
    assert (Hstep : walk (String c "") (Some l) st = Some (Some l1, st)).
    { rewrite walk_cons, Hn. simpl. rewrite Hc. apply walk_empty. }
    destruct (IH l1 Hlt n1 Hn1 (no_orphans_sub _ _ _ _ Hno Hstep))
      as (q & l' & ch' & v & Hw & Hv).
    exists (String c q), l', ch', v. split; [|done].
    rewrite walk_cons, Hn. simpl. by rewrite Hc.
  - exists "", l, ch, v. split; [apply walk_empty | done].
Qed.

(** ** The operations, with everything a composition needs *)

Lemma Put_facts key v t st :
  wf_nodes (nodes st) → valid_handle (nodes st) t →
  ∃ l st',
    Put key v t st = Some (Some l, st') ∧
    PutHelper t key v st = Some (l, st') ∧
    wf_nodes (nodes st') ∧ valid_handle (nodes st') (Some l) ∧
    (ladder_nodes (nodes st) → in_ladder (type_of v) →
     ladder_nodes (nodes st')) ∧
    (∀ T, Get T key (Some l) st' =
          Some (if decide (type_of v = T) then Some v else None, st')) ∧
    (ladder_nodes (nodes st) →
     ∀ T key2, key2 ≠ key → agree st t st' (Some l) T key2).
Proof.
  intros Hwf Hv.
  destruct (Put_total key v t st Hwf Hv) as (l & st' & Hput & Hrun & _ & Hwf' & Hl).
  exists l, st'. split_and!; try done.
  - by apply valid_handle_Some.
  - intros Hlad Hty.
    destruct (PutHelper_fresh key t v st l st' Hwf Hv Hrun)
      as (fresh & log & Hext & _ & _ & Hf).
    destruct (Hf Hlad Hty) as [Hfresh _].
    unfold ladder_nodes. rewrite Hext. by apply Forall_app.
  - intros T. exact (PutHelper_hit T key t v st l st' Hwf Hv Hrun).
  - intros Hlad T key2 Hne.
    exact (PutHelper_other T key t v st l st' key2 Hwf Hv Hlad Hrun Hne).
Qed.

Lemma Remove_facts key t st :
  wf_nodes (nodes st) → valid_handle (nodes st) t →
  ∃ r st',
    Remove key t st = Some (r, st') ∧
    nodes st `prefix_of` nodes st' ∧
    wf_nodes (nodes st') ∧ valid_handle (nodes st') r ∧
    (ladder_nodes (nodes st) → ladder_nodes (nodes st')) ∧
    (∀ T, Get T key r st' = Some (None, st')) ∧
    (ladder_nodes (nodes st) →
     ∀ T key2, key2 ≠ key → agree st t st' r T key2).
Proof.
  intros Hwf Hv.
  destruct (RemoveHelper_alloc key t st Hwf Hv)
    as (r & fresh & log & Hrun & _ & Hwf' & Hv').
  set (st' := mkStore _ _) in *.
  exists r, st'. split_and!; try done.
  - by exists fresh.
  - intros Hlad.
    destruct (RemoveHelper_fresh key t st r st' Hwf Hv Hlad Hrun)
      as (fresh' & log' & Hext & _ & _ & Hf & _).
    unfold ladder_nodes. rewrite Hext. by apply Forall_app.
  - intros T. exact (RemoveHelper_gone T key t st r st' Hwf Hv Hrun).
  - intros Hlad T key2 Hne.
    exact (RemoveHelper_other key t st r st' T key2 Hwf Hv Hlad Hrun Hne).
Qed.

(** ** Statements *)

(** [Get] on a well-formed store returns without a fault, leaves the store
    exactly as it was, and gives the same answer in every later store. *)
Theorem get_reads_only (st : Store) (t : Trie) (T : TypeTag) (key : string) :
  wf_nodes (nodes st) → valid_handle (nodes st) t →
  ∃ r, Get T key t st = Some (r, st) ∧
       ∀ st', nodes st `prefix_of` nodes st' →
              Get T key t st' = Some (r, st').
Proof. intros Hwf Hv. by apply Get_frame. Qed.

(** [Put] builds exactly [|K| + 1] nodes, whatever the trie already holds
    at [K], and returns the last of them as the new root: the root of the
    receiver is never reused. *)
Theorem put_allocates_exactly (st : Store) (S : Trie) (K : string)
    (V : Value) :
  wf_nodes (nodes st) → valid_handle (nodes st) S →
  ∃ st' fresh,
    Put K V S st = Some (Some (length (nodes st) + String.length K), st') ∧
    nodes st' = nodes st ++ fresh ∧
    length fresh = String.length K + 1.
Proof.
  intros Hwf Hv.
  destruct (PutHelper_alloc K S V st Hwf Hv) as (fresh & log & Hrun & Hlen & _).
  eexists _, fresh. split_and!; [by apply Put_run | done | lia].
Qed.

(** After [Remove(K)], [Get] at [K] reports absence under every type,
    whatever the trie held at [K]. *)
Theorem remove_then_get_absent (st : Store) (S : Trie) (K : string) :
  wf_nodes (nodes st) → valid_handle (nodes st) S →
  ∃ S' st', Remove K S st = Some (S', st') ∧
            ∀ T, Get T K S' st' = Some (None, st').
Proof.
  intros Hwf Hv.
  destruct (Remove_facts K S st Hwf Hv) as (r & st' & Hrun & _ & _ & _ & _ & Hgone & _).
  by exists r, st'.
Qed.

(** [Remove(K)] leaves every other key as it was: [Get<U>(K2)], for
    [K2] other than [K], answers on the result what it answers on the
    receiver. *)
Theorem remove_non_interference (st : Store) (S : Trie) (K K2 : string)
    (U : TypeTag) :
  wf_nodes (nodes st) → valid_handle (nodes st) S →
  ladder_nodes (nodes st) →
  K ≠ K2 →
  ∃ S' st' r, Remove K S st = Some (S', st') ∧
              Get U K2 S' st' = Some (r, st') ∧
              Get U K2 S st = Some (r, st).
Proof.
  intros Hwf Hv Hlad Hne.
  destruct (Remove_facts K S st Hwf Hv) as (r & st' & Hrun & _ & _ & _ & _ & _ & Hoth).
  destruct (Hoth Hlad U K2) as (x & Hold & Hnew); [done|].
  by exists r, st', x.
Qed.

(** [Remove] appends at most [|K| + 1] nodes to the store and rewrites
    none; the trie it returns is in the store, and every [Get] on the
    receiver answers afterwards what it answered before. *)
Theorem remove_leaves_receiver (st : Store) (S : Trie) (K : string) :
  wf_nodes (nodes st) → valid_handle (nodes st) S →
  ∃ S' st' fresh,
    Remove K S st = Some (S', st') ∧
    nodes st' = nodes st ++ fresh ∧
    length fresh ≤ String.length K + 1 ∧
    valid_handle (nodes st') S' ∧
    (∀ T key, ∃ r, Get T key S st = Some (r, st) ∧
                   Get T key S st' = Some (r, st')).
Proof.
  intros Hwf Hv.
  destruct (RemoveHelper_alloc K S st Hwf Hv)
    as (r & fresh & log & Hrun & Hlen & Hwf' & Hv').
  eexists r, _, fresh. split_and!; [exact Hrun | done | lia | done |].
  intros T key. apply agree_frame; [done..|]. by exists fresh.
Qed.

(** Structural sharing of [Remove]: along [K], a node of the result keeps
    every child entry of the node it replaces, except the entry of the
    next key byte. *)
Theorem remove_structural_sharing (st : Store) (S : Trie) (K : string) :
  wf_nodes (nodes st) → valid_handle (nodes st) S →
  ∃ S' st',
    Remove K S st = Some (S', st') ∧
    ∀ p b s l1 n1 l2 n2,
      K = p +:+ String b s →
      walk p S st = Some (Some l1, st) → nodes st !! l1 = Some n1 →
      walk p S' st' = Some (Some l2, st') → nodes st' !! l2 = Some n2 →
      ∀ c, c ≠ b → children_ n2 !! c = children_ n1 !! c.
Proof.
  intros Hwf Hv.
  destruct (RemoveHelper_alloc K S st Hwf Hv) as (r & fresh & log & Hrun & _).
  eexists r, _. split; [exact Hrun|].
  intros p b s l1 n1 l2 n2 HK Hw1 Hn1 Hw2 Hn2.
  by eapply (RemoveHelper_shares K S st r _ p b s l1 n1 l2 n2).
Qed.

(** A [Remove] that returns the empty trie has allocated nothing. *)
Theorem remove_to_empty_allocates_nothing (st st' : Store) (S : Trie)
    (K : string) :
  wf_nodes (nodes st) → valid_handle (nodes st) S →
  Remove K S st = Some (None, st') → st' = st.
Proof. intros Hwf Hv Hrun. by eapply RemoveHelper_null_result. Qed.

(** [Put(K, V)] followed by [Remove(K)]: [K] is absent afterwards, and
    every other key answers as on the trie before the [Put]. *)
Theorem put_then_remove (st : Store) (S : Trie) (K : string) (V : Value) :
  wf_nodes (nodes st) → valid_handle (nodes st) S →
  ladder_nodes (nodes st) → instantiated (type_of V) →
  ∃ S1 st1 S2 st2,
    Put K V S st = Some (S1, st1) ∧
    Remove K S1 st1 = Some (S2, st2) ∧
    (∀ T, Get T K S2 st2 = Some (None, st2)) ∧
    (∀ T K2, K2 ≠ K →
       ∃ r, Get T K2 S st = Some (r, st) ∧ Get T K2 S2 st2 = Some (r, st2)).
Proof.
  intros Hwf Hv Hlad Hty.
  destruct (Put_facts K V S st Hwf Hv)
    as (l1 & st1 & Hput & _ & Hwf1 & Hv1 & Hlad1 & _ & Hoth1).
  destruct (Remove_facts K (Some l1) st1 Hwf1 Hv1)
    as (S2 & st2 & Hrem & _ & _ & _ & _ & Hgone & Hoth2).
  exists (Some l1), st1, S2, st2. split_and!; try done.
  intros T K2 Hne.
  apply (agree_trans st S st1 (Some l1)); [by apply Hoth1|].
  apply Hoth2; [|done]. by apply Hlad1, instantiated_in_ladder.
Qed.

(** Putting the same value at the same key twice gives a trie that answers
    every [Get] as the trie after the first [Put]. *)
Theorem put_same_twice (st : Store) (S : Trie) (K : string) (V : Value) :
  wf_nodes (nodes st) → valid_handle (nodes st) S →
  ladder_nodes (nodes st) → instantiated (type_of V) →
  ∃ S1 st1 S2 st2,
    Put K V S st = Some (S1, st1) ∧
    Put K V S1 st1 = Some (S2, st2) ∧
    ∀ T key, ∃ r, Get T key S1 st1 = Some (r, st1) ∧
                  Get T key S2 st2 = Some (r, st2).
Proof.
  intros Hwf Hv Hlad Hty.
  destruct (Put_facts K V S st Hwf Hv)
    as (l1 & st1 & Hput1 & _ & Hwf1 & Hv1 & Hlad1 & Hhit1 & _).
  destruct (Put_facts K V (Some l1) st1 Hwf1 Hv1)
    as (l2 & st2 & Hput2 & _ & _ & _ & _ & Hhit2 & Hoth2).
  exists (Some l1), st1, (Some l2), st2. split_and!; try done.
  intros T key. destruct (decide (key = K)) as [->|Hne].
  - eexists. split; [apply Hhit1 | apply Hhit2].
  - apply Hoth2; [|done]. by apply Hlad1, instantiated_in_ladder.
Qed.

(** Two [Put]s at distinct keys commute: either order gives a trie with
    the same answer to every [Get]. *)
Theorem put_put_commute (st : Store) (S : Trie) (K1 K2 : string)
    (V1 V2 : Value) :
  wf_nodes (nodes st) → valid_handle (nodes st) S →
  ladder_nodes (nodes st) →
  instantiated (type_of V1) → instantiated (type_of V2) →
  K1 ≠ K2 →
  ∃ A1 a1 A a B1 b1 B b,
    Put K1 V1 S st = Some (A1, a1) ∧ Put K2 V2 A1 a1 = Some (A, a) ∧
    Put K2 V2 S st = Some (B1, b1) ∧ Put K1 V1 B1 b1 = Some (B, b) ∧
    ∀ T key, ∃ r, Get T key A a = Some (r, a) ∧ Get T key B b = Some (r, b).
Proof.
  intros Hwf Hv Hlad Hty1 Hty2 Hne.
  destruct (Put_facts K1 V1 S st Hwf Hv)
    as (la1 & a1 & HputA1 & _ & Hwfa1 & Hva1 & Hlada1 & HhitA1 & HothA1).
  destruct (Put_facts K2 V2 (Some la1) a1 Hwfa1 Hva1)
    as (la & a & HputA & _ & _ & _ & _ & HhitA & HothA).
  destruct (Put_facts K2 V2 S st Hwf Hv)
    as (lb1 & b1 & HputB1 & _ & Hwfb1 & Hvb1 & Hladb1 & HhitB1 & HothB1).
  destruct (Put_facts K1 V1 (Some lb1) b1 Hwfb1 Hvb1)
    as (lb & b & HputB & _ & _ & _ & _ & HhitB & HothB).
  pose proof (Hlada1 Hlad (instantiated_in_ladder _ Hty1)) as Hla.
  pose proof (Hladb1 Hlad (instantiated_in_ladder _ Hty2)) as Hlb.
  exists (Some la1), a1, (Some la), a, (Some lb1), b1, (Some lb), b.
  split_and!; try done.
  intros T key.
  destruct (decide (key = K1)) as [->|Hk1]; [|destruct (decide (key = K2)) as [->|Hk2]].
  - destruct (HothA Hla T K1 Hne) as (r & Hr1 & Hr2).
    rewrite HhitA1 in Hr1. simplify_eq.
    eexists. split; [exact Hr2 | apply HhitB].
  - destruct (HothB Hlb T K2 Hk1) as (r & Hr1 & Hr2).
    rewrite HhitB1 in Hr1. simplify_eq.
    eexists. split; [apply HhitA | exact Hr2].
  - destruct (HothA1 Hlad T key Hk1) as (r & Hs & Hr1).
    destruct (HothA Hla T key Hk2) as (r' & Hr1' & Hr2).
    rewrite Hr1 in Hr1'. simplify_eq.
    destruct (HothB1 Hlad T key Hk2) as (x & Hs' & Hx1).
    rewrite Hs in Hs'. simplify_eq.
    destruct (HothB Hlb T key Hk1) as (x' & Hx1' & Hx2).
    rewrite Hx1 in Hx1'. simplify_eq.
    by exists x'.
Qed.

(** Removing a key twice gives a trie that answers every [Get] as the trie
    after the first [Remove]. *)
Theorem remove_twice (st : Store) (S : Trie) (K : string) :
  wf_nodes (nodes st) → valid_handle (nodes st) S →
  ladder_nodes (nodes st) →
  ∃ S1 st1 S2 st2,
    Remove K S st = Some (S1, st1) ∧
    Remove K S1 st1 = Some (S2, st2) ∧
    ∀ T key, ∃ r, Get T key S1 st1 = Some (r, st1) ∧
                  Get T key S2 st2 = Some (r, st2).
Proof.
  intros Hwf Hv Hlad.
  destruct (Remove_facts K S st Hwf Hv)
    as (S1 & st1 & Hrem1 & _ & Hwf1 & Hv1 & Hlad1 & Hgone1 & _).
  destruct (Remove_facts K S1 st1 Hwf1 Hv1)
    as (S2 & st2 & Hrem2 & _ & _ & _ & _ & _ & _).
  exists S1, st1, S2, st2. split_and!; try done.
  intros T key.
  by apply (RemoveHelper_absent K S1 st1 S2 st2 Hwf1 Hv1 (Hlad1 Hlad) Hgone1).
Qed.

(** In every store an application can produce, each trie it holds is null
    or in the store, and each child handle of each node resolves to a node
    allocated before its parent: no dangling child, and no cycle. *)
Theorem reachable_store_closed_acyclic (st : Store) (ts : list Trie) :
  reachable st ts →
  (∀ t l, t ∈ ts → t = Some l → is_Some (nodes st !! l)) ∧
  (∀ l n c l', nodes st !! l = Some n → children_ n !! c = Some l' →
               l' < l ∧ is_Some (nodes st !! l')).
Proof.
  intros Hreach.
  destruct (reachable_inv st ts Hreach) as [Hwf _ _ Hval _].
  rewrite Forall_forall in Hval. split.
  - intros t l Hin ->. apply lookup_lt_is_Some_2. by apply (Hval _ Hin).
  - intros l n c l' Hn Hc. pose proof (Hwf _ _ _ _ Hn Hc) as Hlt.
    split; [done|]. apply lookup_lt_is_Some_2.
    apply lookup_lt_Some in Hn. lia.
Qed.

(** [Put(K, V)] brings no payload into the store but [V]: the payload of
    every node of the store afterwards is [V] or was the payload of a node
    before. *)
Theorem put_brings_only_its_value (st : Store) (S : Trie) (K : string)
    (V : Value) :
  wf_nodes (nodes st) → valid_handle (nodes st) S →
  ∃ S' st',
    Put K V S st = Some (S', st') ∧
    ∀ l n w, nodes st' !! l = Some n → value_ n = Some w →
             w = V ∨ ∃ l0 n0, nodes st !! l0 = Some n0 ∧ value_ n0 = Some w.
Proof.
  intros Hwf Hv.
  destruct (Put_total K V S st Hwf Hv) as (l & st' & Hput & Hrun & _).
  exists (Some l), st'. split; [done|].
  by apply (PutHelper_provenance K S V st l st' Hwf Hv Hrun).
Qed.

(** [Remove] brings no payload into the store: the payload of every node
    afterwards was the payload of a node before. *)
Theorem remove_brings_no_payload (st : Store) (S : Trie) (K : string) :
  wf_nodes (nodes st) → valid_handle (nodes st) S →
  ∃ S' st',
    Remove K S st = Some (S', st') ∧
    ∀ l n w, nodes st' !! l = Some n → value_ n = Some w →
             ∃ l0 n0, nodes st !! l0 = Some n0 ∧ value_ n0 = Some w.
Proof.
  intros Hwf Hv.
  destruct (RemoveHelper_alloc K S st Hwf Hv) as (r & fresh & log & Hrun & _).
  eexists r, _. split; [exact Hrun|].
  by apply (RemoveHelper_provenance K S st r _ Hwf Hv Hrun).
Qed.

(** In every store an application can produce, every payload has one of
    the three instantiated types, and [CreateNodeWithNewChildren] has only
    ever returned from its no-value, [uint32_t], [uint64_t] or
    [std::string] branch: its [int] branch is as dead as its fallback. *)
Theorem reachable_payloads_instantiated (st : Store) (ts : list Trie) :
  reachable st ts →
  (∀ l n w, nodes st !! l = Some n → value_ n = Some w →
            instantiated (type_of w)) ∧
  (BrInt ∉ rebuilds st) ∧ (BrFallback ∉ rebuilds st).
Proof.
  intros Hreach. destruct (reachable_typed st ts Hreach) as [Hn Hl].
  unfold instantiated_nodes in Hn. rewrite Forall_lookup in Hn.
  rewrite Forall_forall in Hl. split_and!.
  - intros l n w Hln Hw. by eapply Hn.
  - intros Hin. specialize (Hl _ Hin).
    repeat (apply elem_of_cons in Hl as [Hl|Hl]; [done|]).
    by apply elem_of_nil in Hl.
  - intros Hin. specialize (Hl _ Hin).
    repeat (apply elem_of_cons in Hl as [Hl|Hl]; [done|]).
    by apply elem_of_nil in Hl.
Qed.

(** No dead branch: in a trie an application can build, every node lies on
    the path of a stored key. From the node a key [p] leads to, some
    extension of [p] holds a value. *)
Theorem every_node_leads_to_a_value (st : Store) (ts : list Trie) (t : Trie)
    (p : string) (l : loc) :
  reachable st ts → t ∈ ts →
  walk p t st = Some (Some l, st) →
  ∃ q v, Get (type_of v) (p +:+ q) t st = Some (Some v, st).
Proof.
  intros Hreach Hin Hw.
  destruct (reachable_inv st ts Hreach) as [Hwf _ _ Hval Horph].
  rewrite Forall_forall in Hval, Horph.
  pose proof (walk_valid _ _ _ _ Hwf (Hval _ Hin) Hw) as Hl.
  destruct (lookup_lt_is_Some_2 _ _ Hl) as [n Hn].
  destruct (value_below st Hwf l n Hn (no_orphans_sub _ _ _ _ (Horph _ Hin) Hw))
    as (q & l' & ch & v & Hq & Hv).
  exists q, v. rewrite (Get_append _ p q t st (Some l) Hw).
  rewrite (Get_of_walk _ q (Some l) st l' _ Hq Hv). simpl.
  by rewrite decide_True.
Qed.

(** A trie an application can build has a null root exactly when it holds
    no key at all. *)
Theorem null_root_iff_no_key (st : Store) (ts : list Trie) (t : Trie) :
  reachable st ts → t ∈ ts →
  t = None ↔ ∀ T key, Get T key t st = Some (None, st).
Proof.
  intros Hreach Hin. split; [by intros ->|].
  intros Habs. destruct t as [l|]; [exfalso|done].
  destruct (reachable_inv st ts Hreach) as [Hwf _ _ Hval Horph].
  rewrite Forall_forall in Hval, Horph.
  pose proof (Hval _ Hin l eq_refl) as Hl.
  destruct (lookup_lt_is_Some_2 _ _ Hl) as [n Hn].
  destruct (value_below st Hwf l n Hn (Horph _ Hin))
    as (q & l' & ch & v & Hq & Hv).
  specialize (Habs (type_of v) q).
  rewrite (Get_of_walk _ q (Some l) st l' _ Hq Hv) in Habs. simpl in Habs.
  rewrite decide_True in Habs by done. by simplify_eq.
Qed.

(** * The properties on a concrete store *)

Example demo_trie_root : demo_trie = Some 6.
Proof. vm_compute. reflexivity. Qed.

Lemma demo_reachable : reachable demo_store [demo_trie; Some 2; None].
Proof.
  eapply (reach_put _ _ (Some 2) "cde" (V_string "x")).
  - eapply (reach_put _ _ None "ab" (V_uint32 1)).
    + apply reach_init.
    + apply list_elem_of_here.
    + by left.
    + vm_compute. reflexivity.
  - apply list_elem_of_here.
  - by right; right.
  - vm_compute. reflexivity.
Qed.

Lemma demo_wf : wf_nodes (nodes demo_store).
Proof. apply (inv_wf _ _ (reachable_inv _ _ demo_reachable)). Qed.

Lemma demo_ladder : ladder_nodes (nodes demo_store).
Proof. apply (inv_ladder _ _ (reachable_inv _ _ demo_reachable)). Qed.

Lemma demo_valid : valid_handle (nodes demo_store) demo_trie.
Proof.
  pose proof (inv_valid _ _ (reachable_inv _ _ demo_reachable)) as H.
  by apply Forall_cons in H as [H _].
Qed.

(** The defect behind the fallback branch: on [foreign_store] the payload
    is lost when [Put] rebuilds its node, and the log shows the branch. *)
Example fallback_drops_payload :
  (a <- Get (T_other 0) "" (Some 0) ;;
   T <- Put "k" (V_uint32 1) (Some 0) ;;
   b <- Get (T_other 0) "" T ;;
   ret (a, b)) foreign_store
  = Some (Some (V_other 0 "3.14"), None,
          mkStore [TrieNodeWithValue ∅ (V_other 0 "3.14");
                   TrieNodeWithValue ∅ (V_uint32 1);
                   PlainNode {[ "k"%char := 1 ]}]
                  [BrFallback]).
Proof. vm_compute. reflexivity. Qed.

Lemma put_get_round_trip_witness :
  ∃ S' st', Put "abc" (V_uint64 9) demo_trie demo_store = Some (S', st') ∧
            Get T_uint64 "abc" S' st' = Some (Some (V_uint64 9), st').
Proof.
  apply (put_get_round_trip demo_store demo_trie "abc" (V_uint64 9));
    [apply demo_wf | apply demo_valid].
Defined.

Lemma put_non_interference_witness :
  ∃ S' st' r, Put "a" (V_uint32 5) demo_trie demo_store = Some (S', st') ∧
              Get T_uint32 "ab" S' st' = Some (r, st') ∧
              Get T_uint32 "ab" demo_trie demo_store = Some (r, demo_store).
Proof.
  apply (put_non_interference demo_store demo_trie "a" "ab" (V_uint32 5)
           T_uint32);
    [apply demo_wf | apply demo_valid | apply demo_ladder | done].
Defined.

Lemma remove_after_put_cascade_witness :
  ∃ T1 st1 st2,
    Put "abc" (V_uint32 7) None demo_store = Some (T1, st1) ∧
    Remove "abc" T1 st1 = Some (None, st2) ∧
    Get T_uint32 "abc" None st2 = Some (None, st2) ∧
    Get T_uint32 "abc" T1 st2 = Some (Some (V_uint32 7), st2).
Proof.
  apply (remove_after_put_cascade demo_store "abc" (V_uint32 7)), demo_wf.
Defined.

Lemma put_overwrite_witness :
  ∃ S1 st1 S2 st2,
    Put "k" (V_uint32 1) demo_trie demo_store = Some (S1, st1) ∧
    Put "k" (V_string "one") S1 st1 = Some (S2, st2) ∧
    Get T_uint32 "k" S2 st2 = Some (None, st2).
Proof.
  apply (put_overwrite demo_store demo_trie "k" (V_uint32 1) (V_string "one")
           T_uint32);
    [apply demo_wf | apply demo_valid].
Defined.

Lemma get_type_fidelity_witness :
  Get T_uint32 "ab" demo_trie demo_store
    = Some (Some (V_uint32 1), demo_store) ∧
  (T_uint64 ≠ T_uint32 →
   Get T_uint64 "ab" demo_trie demo_store = Some (None, demo_store)).
Proof.
  apply (get_type_fidelity demo_store demo_trie "ab" 0 ∅ (V_uint32 1)
           T_uint64);
    vm_compute; reflexivity.
Defined.

Lemma remove_absent_noop_witness :
  ∃ S' st', Remove "cd" demo_trie demo_store = Some (S', st') ∧
            ∀ T K2, ∃ r, Get T K2 S' st' = Some (r, st') ∧
                         Get T K2 demo_trie demo_store = Some (r, demo_store).
Proof.
  apply (remove_absent_noop demo_store demo_trie "cd");
    [apply demo_wf | apply demo_valid | apply demo_ladder |].
  intros U. vm_compute. reflexivity.
Defined.

Lemma no_orphan_internals_witness :
  (∀ key l n,
     walk key demo_trie demo_store = Some (Some l, demo_store) →
     nodes demo_store !! l = Some n →
     is_value_node_ n = false → children_ n ≠ ∅) ∧
  (∀ key v, ∃ t' st',
     Put key v demo_trie demo_store = Some (t', st') ∧ no_orphans st' t') ∧
  (∀ key, ∃ t' st',
     Remove key demo_trie demo_store = Some (t', st') ∧ no_orphans st' t').
Proof.
  apply (no_orphan_internals demo_store [demo_trie; Some 2; None] demo_trie);
    [apply demo_reachable | apply list_elem_of_here].
Defined.

Lemma put_structural_sharing_witness :
  ∃ T2 st' fresh,
    Put "cx" (V_uint32 3) demo_trie demo_store = Some (T2, st') ∧
    nodes st' = nodes demo_store ++ fresh ∧
    length fresh ≤ 3 ∧
    (∀ p b s l1 n1,
       "cx" = p +:+ String b s →
       walk p demo_trie demo_store = Some (Some l1, demo_store) →
       nodes demo_store !! l1 = Some n1 →
       ∃ l2 n2, walk p T2 st' = Some (Some l2, st') ∧
                nodes st' !! l2 = Some n2 ∧
                ∀ c, c ≠ b → children_ n2 !! c = children_ n1 !! c) ∧
    (∀ l1 n1,
       walk "cx" demo_trie demo_store = Some (Some l1, demo_store) →
       nodes demo_store !! l1 = Some n1 →
       ∃ l2 n2, walk "cx" T2 st' = Some (Some l2, st') ∧
                nodes st' !! l2 = Some n2 ∧
                children_ n2 = children_ n1) ∧
    (∀ l n, nodes demo_store !! l = Some n → nodes st' !! l = Some n) ∧
    (∀ T key, ∃ r, Get T key demo_trie demo_store = Some (r, demo_store) ∧
                   Get T key demo_trie st' = Some (r, st')).
Proof.
  apply (put_structural_sharing demo_store demo_trie "cx" (V_uint32 3));
    [apply demo_wf | apply demo_valid].
Defined.

Lemma fallback_unreachable_witness :
  (BrFallback ∉ rebuilds demo_store) ∧
  (∀ l n new_children,
     nodes demo_store !! l = Some n →
     ∃ n' b,
       CreateNodeWithNewChildren (Some l) new_children demo_store =
         Some (length (nodes demo_store),
               mkStore (nodes demo_store ++ [n']) (b :: rebuilds demo_store)) ∧
       b ≠ BrFallback ∧
       children_ n' = new_children ∧
       is_value_node_ n' = is_value_node_ n ∧
       (∀ T, dynamic_cast T n' = dynamic_cast T n)).
Proof.
  apply (fallback_unreachable demo_store [demo_trie; Some 2; None]),
    demo_reachable.
Defined.

(** ** The further properties on the same store *)

Lemma demo_valid_first : valid_handle (nodes demo_store) (Some 2).
Proof.
  pose proof (inv_valid _ _ (reachable_inv _ _ demo_reachable)) as H.
  apply Forall_cons in H as [_ H]. by apply Forall_cons in H as [H _].
Qed.

Lemma get_reads_only_witness :
  ∃ r, Get T_uint32 "ab" demo_trie demo_store = Some (r, demo_store) ∧
       ∀ st', nodes demo_store `prefix_of` nodes st' →
              Get T_uint32 "ab" demo_trie st' = Some (r, st').
Proof.
  apply (get_reads_only demo_store demo_trie T_uint32 "ab");
    [apply demo_wf | apply demo_valid].
Defined.

Lemma remove_then_get_absent_witness :
  ∃ S' st', Remove "ab" demo_trie demo_store = Some (S', st') ∧
            ∀ T, Get T "ab" S' st' = Some (None, st').
Proof.
  apply (remove_then_get_absent demo_store demo_trie "ab");
    [apply demo_wf | apply demo_valid].
Defined.

Lemma remove_non_interference_witness :
  ∃ S' st' r, Remove "ab" demo_trie demo_store = Some (S', st') ∧
              Get T_string "cde" S' st' = Some (r, st') ∧
              Get T_string "cde" demo_trie demo_store = Some (r, demo_store).
Proof.
  apply (remove_non_interference demo_store demo_trie "ab" "cde" T_string);
    [apply demo_wf | apply demo_valid | apply demo_ladder | done].
Defined.

Lemma remove_leaves_receiver_witness :
  ∃ S' st' fresh,
    Remove "cde" demo_trie demo_store = Some (S', st') ∧
    nodes st' = nodes demo_store ++ fresh ∧
    length fresh ≤ 4 ∧
    valid_handle (nodes st') S' ∧
    (∀ T key, ∃ r, Get T key demo_trie demo_store = Some (r, demo_store) ∧
                   Get T key demo_trie st' = Some (r, st')).
Proof.
  apply (remove_leaves_receiver demo_store demo_trie "cde");
    [apply demo_wf | apply demo_valid].
Defined.

Lemma remove_structural_sharing_witness :
  ∃ S' st',
    Remove "cde" demo_trie demo_store = Some (S', st') ∧
    ∀ p b s l1 n1 l2 n2,
      "cde" = p +:+ String b s →
      walk p demo_trie demo_store = Some (Some l1, demo_store) →
      nodes demo_store !! l1 = Some n1 →
      walk p S' st' = Some (Some l2, st') → nodes st' !! l2 = Some n2 →
      ∀ c, c ≠ b → children_ n2 !! c = children_ n1 !! c.
Proof.
  apply (remove_structural_sharing demo_store demo_trie "cde");
    [apply demo_wf | apply demo_valid].
Defined.

Lemma remove_to_empty_allocates_nothing_witness :
  Remove "ab" (Some 2) demo_store = Some (None, demo_store) ∧
  demo_store = demo_store.
Proof.
  assert (H : Remove "ab" (Some 2) demo_store = Some (None, demo_store))
    by (vm_compute; reflexivity).
  split; [exact H|].
  exact (remove_to_empty_allocates_nothing demo_store demo_store (Some 2) "ab"
           demo_wf demo_valid_first H).
Defined.

Lemma put_then_remove_witness :
  ∃ S1 st1 S2 st2,
    Put "ab" (V_uint64 8) demo_trie demo_store = Some (S1, st1) ∧
    Remove "ab" S1 st1 = Some (S2, st2) ∧
    (∀ T, Get T "ab" S2 st2 = Some (None, st2)) ∧
    (∀ T K2, K2 ≠ "ab" →
       ∃ r, Get T K2 demo_trie demo_store = Some (r, demo_store) ∧
            Get T K2 S2 st2 = Some (r, st2)).
Proof.
  apply (put_then_remove demo_store demo_trie "ab" (V_uint64 8));
    [apply demo_wf | apply demo_valid | apply demo_ladder | by right; left].
Defined.

Lemma put_same_twice_witness :
  ∃ S1 st1 S2 st2,
    Put "c" (V_string "y") demo_trie demo_store = Some (S1, st1) ∧
    Put "c" (V_string "y") S1 st1 = Some (S2, st2) ∧
    ∀ T key, ∃ r, Get T key S1 st1 = Some (r, st1) ∧
                  Get T key S2 st2 = Some (r, st2).
Proof.
  apply (put_same_twice demo_store demo_trie "c" (V_string "y"));
    [apply demo_wf | apply demo_valid | apply demo_ladder | by right; right].
Defined.

Lemma put_put_commute_witness :
  ∃ A1 a1 A a B1 b1 B b,
    Put "a" (V_uint32 1) demo_trie demo_store = Some (A1, a1) ∧
    Put "abc" (V_uint64 2) A1 a1 = Some (A, a) ∧
    Put "abc" (V_uint64 2) demo_trie demo_store = Some (B1, b1) ∧
    Put "a" (V_uint32 1) B1 b1 = Some (B, b) ∧
    ∀ T key, ∃ r, Get T key A a = Some (r, a) ∧ Get T key B b = Some (r, b).
Proof.
  apply (put_put_commute demo_store demo_trie "a" "abc" (V_uint32 1)
           (V_uint64 2));
    [apply demo_wf | apply demo_valid | apply demo_ladder
    | by left | by right; left | done].
Defined.

Lemma remove_twice_witness :
  ∃ S1 st1 S2 st2,
    Remove "cde" demo_trie demo_store = Some (S1, st1) ∧
    Remove "cde" S1 st1 = Some (S2, st2) ∧
    ∀ T key, ∃ r, Get T key S1 st1 = Some (r, st1) ∧
                  Get T key S2 st2 = Some (r, st2).
Proof.
  apply (remove_twice demo_store demo_trie "cde");
    [apply demo_wf | apply demo_valid | apply demo_ladder].
Defined.

Lemma reachable_store_closed_acyclic_witness :
  (∀ t l, t ∈ [demo_trie; Some 2; None] → t = Some l →
          is_Some (nodes demo_store !! l)) ∧
  (∀ l n c l', nodes demo_store !! l = Some n → children_ n !! c = Some l' →
               l' < l ∧ is_Some (nodes demo_store !! l')).
Proof.
  apply (reachable_store_closed_acyclic demo_store [demo_trie; Some 2; None]),
    demo_reachable.
Defined.

Lemma put_brings_only_its_value_witness :
  ∃ S' st',
    Put "cd" (V_uint32 4) demo_trie demo_store = Some (S', st') ∧
    ∀ l n w, nodes st' !! l = Some n → value_ n = Some w →
             w = V_uint32 4 ∨
             ∃ l0 n0, nodes demo_store !! l0 = Some n0 ∧ value_ n0 = Some w.
Proof.
  apply (put_brings_only_its_value demo_store demo_trie "cd" (V_uint32 4));
    [apply demo_wf | apply demo_valid].
Defined.

Lemma remove_brings_no_payload_witness :
  ∃ S' st',
    Remove "cde" demo_trie demo_store = Some (S', st') ∧
    ∀ l n w, nodes st' !! l = Some n → value_ n = Some w →
             ∃ l0 n0, nodes demo_store !! l0 = Some n0 ∧ value_ n0 = Some w.
Proof.
  apply (remove_brings_no_payload demo_store demo_trie "cde");
    [apply demo_wf | apply demo_valid].
Defined.

Lemma reachable_payloads_instantiated_witness :
  (∀ l n w, nodes demo_store !! l = Some n → value_ n = Some w →
            instantiated (type_of w)) ∧
  (BrInt ∉ rebuilds demo_store) ∧ (BrFallback ∉ rebuilds demo_store).
Proof.
  apply (reachable_payloads_instantiated demo_store [demo_trie; Some 2; None]),
    demo_reachable.
Defined.

Lemma every_node_leads_to_a_value_witness :
  ∃ q v, Get (type_of v) ("c" +:+ q) demo_trie demo_store
         = Some (Some v, demo_store).
Proof.
  apply (every_node_leads_to_a_value demo_store [demo_trie; Some 2; None]
           demo_trie "c" 5);
    [apply demo_reachable | apply list_elem_of_here | vm_compute; reflexivity].
Defined.

Lemma null_root_iff_no_key_witness :
  demo_trie = None ↔
  ∀ T key, Get T key demo_trie demo_store = Some (None, demo_store).
Proof.
  apply (null_root_iff_no_key demo_store [demo_trie; Some 2; None] demo_trie);
    [apply demo_reachable | apply list_elem_of_here].
Defined.

Lemma put_allocates_exactly_witness :
  ∃ st' fresh,
    Put "ab" (V_uint32 1) demo_trie demo_store = Some (Some 9, st') ∧
    nodes st' = nodes demo_store ++ fresh ∧
    length fresh = 3.
Proof.
  apply (put_allocates_exactly demo_store demo_trie "ab" (V_uint32 1));
    [apply demo_wf | apply demo_valid].
Defined.

(** * The unit-test runner *)

Section harness_facts.

Import Harness.

Lemma run_func_outcome body : ∀ err err',
  (run_func body err).1 = (run_func body err').1.
Proof.
  induction body as [|[at_ text cond|at_ tl tr lhs rhs|what|] rest IH];
    intros err err';
    simpl; try done.
  - destruct cond; simpl; [apply IH | done].
  - destruct (lhs =? rhs)%Z; simpl; [apply IH | done].
Qed.

Lemma run_test_failed r t :
  failed (run_test r t) = (failed r + if throws (func t) then 1 else 0)%Z.
Proof.
  unfold run_test, throws.
  rewrite (run_func_outcome (func t) [] (cerr r)).
  destruct (run_func (func t) (cerr r)) as [[| |] err]; simpl; lia.
Qed.

(** What [main] returns: the number of tests that threw. A test stopped by
    a failed assertion is not among them. *)
Lemma exit_status_counts_throws tests :
  exit_status tests = Z.of_nat (length (filter (λ t, throws (func t) = true) tests)).
Proof.
  unfold exit_status, RUN_ALL_TESTS. simpl.
  enough (H : ∀ r, failed (foldl run_test r tests) =
    (failed r + Z.of_nat (length (filter (λ t, throws (func t) = true) tests)))%Z)
    by by rewrite H.
  induction tests as [|t tests IH]; intros r; simpl.
  - lia.
  - rewrite IH, run_test_failed. rewrite filter_cons.
    destruct (throws (func t)); case_decide; try done; simpl; lia.
Qed.

(** C3, at a run of one test whose only assertion fails: the runner writes
    the failure message and then reports the test as passed; [main] returns
    0 although one test failed. *)
Theorem failed_assertion_is_counted_as_pass :
  assertion_fails (func failing_test) = true ∧
  RUN_ALL_TESTS [failing_test] =
    mkRun 1 0
      ["[ RUN      ] Trie.Basic"; "[       OK ] Trie.Basic"; "";
       "[  PASSED  ] 1 tests."]
      ["trie_test.cpp:12: Failure in test_Trie_Basic: ASSERT_EQ(1, 2) failed: 1 != 2"] ∧
  exit_status [failing_test] = 0%Z.
Proof. vm_compute. done. Qed.

Lemma run_test_counted r t :
  (passed (run_test r t) + failed (run_test r t) = passed r + failed r + 1)%Z.
Proof.
  unfold run_test.
  destruct (run_func (func t) (cerr r)) as [[| |] err]; simpl; lia.
Qed.

(** The runner counts every registered test exactly once, as passed or as
    failed: a test that throws does not stop the run. *)
Theorem every_test_counted_once tests :
  (passed (RUN_ALL_TESTS tests) + failed (RUN_ALL_TESTS tests))%Z
  = Z.of_nat (length tests).
Proof.
  unfold RUN_ALL_TESTS. simpl.
  enough (H : ∀ r, (passed (foldl run_test r tests)
                    + failed (foldl run_test r tests)
                    = passed r + failed r + Z.of_nat (length tests))%Z)
    by by rewrite H.
  induction tests as [|t tests IH]; intros r; simpl.
  - lia.
  - rewrite IH. pose proof (run_test_counted r t). lia.
Qed.









End harness_facts.
